(** * Verification of the Cython kernels [grayscale_cython] and [sum_of_squares]

    The two source files are embedded shallowly:

    - [image_cython.pyx]: the RGB to luma kernel.  Typed memoryviews are
      views (a base address and a shape) into one flat byte memory, so that
      aliasing between the two buffers, out-of-range indices (the function
      is compiled with [boundscheck(False)]) and the frame of the writes are
      all visible.  C doubles are Rocq's binary64 primitive floats.
    - [cython_demo.pyx]: the sum-of-squares accumulator, with the C widths
      of its variables ([int] and [long long]) written out on [Z]. *)

From Stdlib Require Import ZArith Lia Floats Strings.Byte.
From stdpp Require Import base tactics option list.

#[local] Set Warnings "-inexact-float".
#[local] Open Scope Z_scope.

(** ** C integer types *)

Module CInt.

(** Two's-complement reduction of a mathematical integer to [w] bits. *)
Definition wrap (w : Z) (z : Z) : Z :=
  (z + 2 ^ (w - 1)) mod 2 ^ w - 2 ^ (w - 1).

(** [int] is 32 bits wide and [long long] is 64 bits wide. *)
Definition int (z : Z) : Z := wrap 32 z.
Definition long_long (z : Z) : Z := wrap 64 z.

Definition INT_MAX : Z := 2 ^ 31 - 1.
Definition INT_MIN : Z := - 2 ^ 31.

End CInt.

(** ** C doubles and the conversions the kernel performs *)

Module CDouble.

Abbreviation uchar := Byte.byte.

Definition uchar_val (c : uchar) : Z := Z.of_N (Byte.to_N c).

(** The usual arithmetic conversion of an [unsigned char] operand of a
    multiplication by a double constant: exact. *)
Definition of_uchar (c : uchar) : float :=
  PrimFloat.of_uint63 (Uint63.of_Z (uchar_val c)).

(** The integral part of a double: the fractional part is discarded
    (truncation toward zero).  Infinities and NaN have none. *)
Definition int_part (f : float) : option Z :=
  match Prim2SF f with
  | S754_zero _ => Some 0
  | S754_finite s m e =>
      let a := Z.shiftl (Z.pos m) e in
      Some (if s then - a else a)
  | S754_infinity _ | S754_nan => None
  end.

(** The cast [(unsigned char) f] of a double: defined when the integral
    part is representable in 8 bits, undefined ([None]) otherwise. *)
Definition to_uchar (f : float) : option uchar :=
  match int_part f with
  | Some z => if 0 <=? z then Byte.of_N (Z.to_N z) else None
  | None => None
  end.

(** A test on the double itself that the cast is defined: [-1 < f < 256]. *)
Definition castable (f : float) : bool :=
  (PrimFloat.ltb (-1)%float f && PrimFloat.ltb f 256%float)%bool.

End CDouble.

Import CDouble.

(** ** The per-pixel expression of [grayscale_cython]

    [source_image[y, x, 0] * 0.299 + source_image[y, x, 1] * 0.587 +
     source_image[y, x, 2] * 0.114], evaluated left to right in double
    precision. *)
Definition luma (r g b : uchar) : float :=
  (of_uchar r * 0.299 + of_uchar g * 0.587 + of_uchar b * 0.114)%float.

(** ** Memory and typed memoryviews

    One flat byte memory holds every buffer.  A load or a store outside
    the memory is undefined behaviour, modelled by [None]. *)

Module Memory.

Abbreviation mem := (list uchar).

Definition load (m : mem) (a : nat) : option uchar := m !! a.

Definition store (m : mem) (a : nat) (v : uchar) : option mem :=
  if decide (a < length m)%nat then Some (<[a := v]> m) else None.

End Memory.

Import Memory.

(** [unsigned char[:, :, ::1]]: the address of the first element and the
    extent of each of the three dimensions.  The buffers are packed and
    row-major (no padding between rows or pixels). *)
Record view3 : Type := View3 {
  v3_data : nat;
  v3_shape0 : nat;
  v3_shape1 : nat;
  v3_shape2 : nat
}.

(** [unsigned char[:, ::1]]. *)
Record view2 : Type := View2 {
  v2_data : nat;
  v2_shape0 : nat;
  v2_shape1 : nat
}.

(** The address an index expression denotes.  With [boundscheck(False)]
    and [wraparound(False)] it is computed from the indices as they are,
    whether or not they lie inside the view's shape. *)
Definition elem3 (v : view3) (y x c : nat) : nat :=
  (v3_data v + (y * v3_shape1 v + x) * v3_shape2 v + c)%nat.

Definition elem2 (v : view2) (y x : nat) : nat :=
  (v2_data v + y * v2_shape1 v + x)%nat.

(** ** [grayscale_cython] *)

(** [for i in l: body], threading the memory; it stops at the first
    undefined step. *)
Fixpoint for_each {A : Type} (body : A -> mem -> option mem) (l : list A)
    (m : mem) : option mem :=
  match l with
  | [] => Some m
  | i :: l' =>
      match body i m with
      | Some m' => for_each body l' m'
      | None => None
      end
  end.

(** [range(n)] for a C [int] bound [n]. *)
Definition range (n : Z) : list nat := seq 0 (Z.to_nat n).

(** The loop body, lines 22 to 26: three loads, the weighted sum, the
    conversion to [unsigned char] and the store into [dest_image[y, x]].
    The call [int(...)] of a C double whose result goes into an
    [unsigned char] element is compiled to the C cast of the double. *)
Definition pixel (source_image : view3) (dest_image : view2) (y x : nat)
    (m : mem) : option mem :=
  r ← load m (elem3 source_image y x 0);
  g ← load m (elem3 source_image y x 1);
  b ← load m (elem3 source_image y x 2);
  v ← to_uchar (luma r g b);
  store m (elem2 dest_image y x) v.

(** [cdef int width = source_image.shape[1]]: a [Py_ssize_t] narrowed to
    a C [int]. *)
Definition width_of (source_image : view3) : Z :=
  CInt.int (Z.of_nat (v3_shape1 source_image)).

Definition height_of (source_image : view3) : Z :=
  CInt.int (Z.of_nat (v3_shape0 source_image)).

(** The inner loop over the columns of row [y]. *)
Definition row_loop (source_image : view3) (dest_image : view2) (y : nat)
    (m : mem) : option mem :=
  for_each (fun x => pixel source_image dest_image y x)
    (range (width_of source_image)) m.

(** The rows [rows] converted one after the other. *)
Definition rows_loop (source_image : view3) (dest_image : view2)
    (rows : list nat) (m : mem) : option mem :=
  for_each (fun y => row_loop source_image dest_image y) rows m.

(** The function, run by one thread: the memory after the call, or [None]
    when the call has undefined behaviour.  It has no other outcome: the
    body raises no exception. *)
Definition grayscale_cython (source_image : view3) (dest_image : view2)
    (m : mem) : option mem :=
  let height := height_of source_image in
  rows_loop source_image dest_image (range height) m.

(** *** The [prange] loop run by several workers

    A static schedule gives each worker one contiguous chunk of rows.  A
    worker is the sequence of the iterations [(y, x)] it still has to run;
    an execution of the team is an interleaving of these sequences, one
    iteration (its loads and its single byte store) at a time. *)

(** The iterations of the rows [lo, lo + n), in program order. *)
Definition chunk_iterations (source_image : view3) (lo n : nat)
    : list (nat * nat) :=
  flat_map (fun y => map (fun x => (y, x)) (range (width_of source_image)))
    (seq lo n).

(** The chunks [(lo, n)] of a partition given by its chunk sizes. *)
Fixpoint chunks (lo : nat) (sizes : list nat) : list (nat * nat) :=
  match sizes with
  | [] => []
  | n :: sizes' => (lo, n) :: chunks (lo + n) sizes'
  end.

Definition workers (source_image : view3) (sizes : list nat)
    : list (list (nat * nat)) :=
  map (fun c => chunk_iterations source_image (fst c) (snd c)) (chunks 0 sizes).

Inductive interleaving {A : Type} : list (list A) -> list A -> Prop :=
| interleaving_done (ts : list (list A)) :
    Forall (fun t => t = []) ts -> interleaving ts []
| interleaving_step (ts1 ts2 : list (list A)) (a : A) (t : list A) (tr : list A) :
    interleaving (ts1 ++ t :: ts2) tr ->
    interleaving (ts1 ++ (a :: t) :: ts2) (a :: tr).

(** The memory after the iterations [tr] have run in that order. *)
Definition run_iterations (source_image : view3) (dest_image : view2)
    (tr : list (nat * nat)) (m : mem) : option mem :=
  for_each (fun p => pixel source_image dest_image (fst p) (snd p)) tr m.

(** *** The workers at the granularity of single memory accesses

    A worker inside an iteration has loaded none, one, two or all three
    samples of its pixel; each load and the final store is one step on the
    shared memory, and a schedule names the worker that takes the next
    step. *)
Inductive stage : Type :=
| Load_r
| Load_g (r : uchar)
| Load_b (r g : uchar)
| Store_gray (r g b : uchar).

Record worker : Type := Worker {
  w_stage : stage;
  w_todo : list (nat * nat)
}.

Definition worker_step (source_image : view3) (dest_image : view2)
    (w : worker) (m : mem) : option (worker * mem) :=
  match w_todo w with
  | [] => Some (w, m)
  | (y, x) :: rest =>
      match w_stage w with
      | Load_r =>
          r ← load m (elem3 source_image y x 0);
          Some (Worker (Load_g r) (w_todo w), m)
      | Load_g r =>
          g ← load m (elem3 source_image y x 1);
          Some (Worker (Load_b r g) (w_todo w), m)
      | Load_b r g =>
          b ← load m (elem3 source_image y x 2);
          Some (Worker (Store_gray r g b) (w_todo w), m)
      | Store_gray r g b =>
          v ← to_uchar (luma r g b);
          m' ← store m (elem2 dest_image y x) v;
          Some (Worker Load_r rest, m')
      end
  end.

(** Worker [i] takes a step; a worker that has finished, or an index that
    names no worker, leaves the state as it is. *)
Definition team_step (source_image : view3) (dest_image : view2) (i : nat)
    (st : list worker * mem) : option (list worker * mem) :=
  match fst st !! i with
  | None => Some st
  | Some w =>
      match worker_step source_image dest_image w (snd st) with
      | Some (w', m') => Some (<[i := w']> (fst st), m')
      | None => None
      end
  end.

Fixpoint team_run (source_image : view3) (dest_image : view2)
    (schedule : list nat) (st : list worker * mem)
    : option (list worker * mem) :=
  match schedule with
  | [] => Some st
  | i :: schedule' =>
      match team_step source_image dest_image i st with
      | Some st' => team_run source_image dest_image schedule' st'
      | None => None
      end
  end.

(** The team at the start of the loop, and a team that has finished. *)
Definition team (source_image : view3) (sizes : list nat) : list worker :=
  map (Worker Load_r) (workers source_image sizes).

Definition finished (ws : list worker) : Prop :=
  Forall (fun w => w_todo w = []) ws.

(** *** Reading the two images out of the memory *)

(** The value the loop body computes for pixel [(y, x)] from memory [m]. *)
Definition gray_of (source_image : view3) (m : mem) (y x : nat) : option uchar :=
  r ← load m (elem3 source_image y x 0);
  g ← load m (elem3 source_image y x 1);
  b ← load m (elem3 source_image y x 2);
  to_uchar (luma r g b).

Definition size3 (v : view3) : nat := (v3_shape0 v * v3_shape1 v * v3_shape2 v)%nat.
Definition size2 (v : view2) : nat := (v2_shape0 v * v2_shape1 v)%nat.

(** The preconditions of a call: a three-channel source, both buffers
    inside the memory and occupying disjoint address ranges, and extents
    that fit the C [int] variables holding them. *)
Record call_ok (m : mem) (source_image : view3) (dest_image : view2) : Prop := {
  ok_channels : v3_shape2 source_image = 3%nat;
  ok_source : (v3_data source_image + size3 source_image <= length m)%nat;
  ok_dest : (v2_data dest_image + size2 dest_image <= length m)%nat;
  ok_disjoint :
    (v3_data source_image + size3 source_image <= v2_data dest_image
     \/ v2_data dest_image + size2 dest_image <= v3_data source_image)%nat;
  ok_height : Z.of_nat (v3_shape0 source_image) <= CInt.INT_MAX;
  ok_width : Z.of_nat (v3_shape1 source_image) <= CInt.INT_MAX
}.

(** The preconditions as the contract words them, with no bound on the
    extents: [call_ok] without its last two fields. *)
Record contract (m : mem) (source_image : view3) (dest_image : view2) : Prop := {
  ct_channels : v3_shape2 source_image = 3%nat;
  ct_source : (v3_data source_image + size3 source_image <= length m)%nat;
  ct_dest : (v2_data dest_image + size2 dest_image <= length m)%nat;
  ct_disjoint :
    (v3_data source_image + size3 source_image <= v2_data dest_image
     \/ v2_data dest_image + size2 dest_image <= v3_data source_image)%nat
}.

(** The destination covers the source: at least as many rows and columns. *)
Definition covers (source_image : view3) (dest_image : view2) : Prop :=
  (v3_shape0 source_image <= v2_shape0 dest_image)%nat
  /\ (v3_shape1 source_image <= v2_shape1 dest_image)%nat.

Definition same_extent (source_image : view3) (dest_image : view2) : Prop :=
  v2_shape0 dest_image = v3_shape0 source_image
  /\ v2_shape1 dest_image = v3_shape1 source_image.

(** The pixel [p = (y, x)] lies in the extent of the source. *)
Definition in_extent (source_image : view3) (p : nat * nat) : Prop :=
  (fst p < v3_shape0 source_image)%nat /\ (snd p < v3_shape1 source_image)%nat.

(** The address iteration [p = (y, x)] stores to. *)
Definition dest_addr (dest_image : view2) (p : nat * nat) : nat :=
  elem2 dest_image (fst p) (snd p).

(** *** The invariant of a team run

    [m0] is the memory at the start of the call. *)

(** The samples a worker holds are those of its current pixel. *)
Definition stage_ok (source_image : view3) (m0 : mem) (p : nat * nat)
    (s : stage) : Prop :=
  match s with
  | Load_r => True
  | Load_g r => m0 !! elem3 source_image (fst p) (snd p) 0 = Some r
  | Load_b r g =>
      m0 !! elem3 source_image (fst p) (snd p) 0 = Some r
      /\ m0 !! elem3 source_image (fst p) (snd p) 1 = Some g
  | Store_gray r g b =>
      m0 !! elem3 source_image (fst p) (snd p) 0 = Some r
      /\ m0 !! elem3 source_image (fst p) (snd p) 1 = Some g
      /\ m0 !! elem3 source_image (fst p) (snd p) 2 = Some b
  end.

Definition worker_ok (source_image : view3) (m0 : mem) (w : worker) : Prop :=
  Forall (in_extent source_image) (w_todo w)
  /\ match w_todo w with
     | [] => True
     | p :: _ => stage_ok source_image m0 p (w_stage w)
     end.

(** The memory has kept its size; it differs from [m0] only at the
    destination of pixels of the extent; and every pixel that no worker
    has left to do has been converted. *)
Record team_inv (source_image : view3) (dest_image : view2) (m0 : mem)
    (ws : list worker) (m : mem) : Prop := {
  inv_length : length m = length m0;
  inv_frame :
    forall a,
      (forall y x, in_extent source_image (y, x) -> a <> elem2 dest_image y x) ->
      m !! a = m0 !! a;
  inv_workers : forall i w, ws !! i = Some w -> worker_ok source_image m0 w;
  inv_done :
    forall p,
      in_extent source_image p ->
      (forall i w, ws !! i = Some w -> ~ In p (w_todo w)) ->
      m !! dest_addr dest_image p = gray_of source_image m0 (fst p) (snd p)
}.

(** *** A small concrete memory

    A 1 x 2 source at address 0, holding the pixels (10, 20, 30) and
    (255, 255, 255), followed by two 1 x 2 destinations with different
    contents. *)
Module Example.

Definition memory : mem :=
  [x0a; x14; x1e; xff; xff; xff; x00; x00; x07; x09].

Definition source : view3 := View3 0 1 2 3.
Definition dest : view2 := View2 6 1 2.
Definition dest' : view2 := View2 8 1 2.

(** The same four bytes seen as a 2 x 2 and as a 2 x 1 destination, and
    the first pixel alone as a 1 x 1 source. *)
Definition dest_2x2 : view2 := View2 6 2 2.
Definition dest_2x1 : view2 := View2 6 2 1.
Definition source_1x1 : view3 := View3 0 1 1 3.
Definition white_1x1 : view3 := View3 3 1 1 3.

Definition dest_1x1 : view2 := View2 6 1 1.

(** The six source bytes as a 2 x 1 image, for two workers. *)
Definition source_2x1 : view3 := View3 0 2 1 3.

(** An empty image and its empty destination. *)
Definition source_0x0 : view3 := View3 0 0 0 3.
Definition dest_0x0 : view2 := View2 6 0 0.

End Example.

(** *** An image with more pixels than a C [int] counts

    A memory of [5 * 2 ^ 31] bytes.  The first [3 * 2 ^ 31] hold a source
    of [2 ^ 31] pixels, the first of them (10, 20, 30) and the others
    black; two destinations of [2 ^ 31] elements follow, the first one
    starting with a 7 and the second one with a 9.  The buffers are seen
    as images of [2 ^ 31] rows of one pixel, or of one row of [2 ^ 31]
    pixels. *)
Module Huge.

Definition pixels : nat := Z.to_nat 2147483648.

Definition memory : mem :=
  (([x0a; x14; x1e] ++ repeat x00 (Z.to_nat 6442450941))
   ++ x07 :: repeat x00 (Z.to_nat 2147483647))
  ++ x09 :: repeat x00 (Z.to_nat 2147483647).

Definition first_dest : nat := Z.to_nat 6442450944.
Definition second_dest : nat := Z.to_nat 8589934592.

Definition source_tall : view3 := View3 0 pixels 1 3.
Definition dest_tall : view2 := View2 first_dest pixels 1.
Definition dest_tall' : view2 := View2 second_dest pixels 1.

Definition source_wide : view3 := View3 0 1 pixels 3.
Definition dest_wide : view2 := View2 first_dest 1 pixels.

End Huge.

(** ** [sum_of_squares] *)

Module CythonDemo.

Inductive py_result : Type :=
| Returns (v : Z)
| OverflowError.

(** The loop [for i in range(1, n + 1): total += i * i] after [k] more
    iterations: [i * i] is a product of two C [int]s, reduced to 32 bits
    before it is widened and added to the [long long] total.  The
    reduction is two's-complement wrap-around, which is what a build with
    CPython's usual compiler flags ([-fwrapv]) gives; ISO C leaves the
    overflow undefined. *)
Fixpoint loop (k : nat) (i : Z) (total : Z) : Z :=
  match k with
  | O => total
  | S k' => loop k' (i + 1) (CInt.long_long (total + CInt.int (i * i)))
  end.

(** [def sum_of_squares(int n)]: the argument is converted to a C [int]
    (an [OverflowError] when it does not fit).  The stop value [n + 1] of
    [range(1, n + 1)] is a sum of two C [int]s, reduced to 32 bits like the
    product: at [n = INT_MAX] it wraps around to [INT_MIN].  The loop runs
    for [i] from 1 up to the stop value, excluded (not at all when the stop
    value is 1 or less), and [total] is returned as a Python integer. *)
Definition sum_of_squares (n : Z) : py_result :=
  if (CInt.INT_MIN <=? n) && (n <=? CInt.INT_MAX)
  then Returns (loop (Z.to_nat (CInt.int (n + 1) - 1)) 1 0)
  else OverflowError.

(** The two readings of the contract: the sum [1^2 + 2^2 + ... + n^2]
    and the closed form [n (n + 1) (2 n + 1) / 6]. *)
Fixpoint sum_squares_upto (n : nat) : Z :=
  match n with
  | O => 0
  | S k => sum_squares_upto k + Z.of_nat n * Z.of_nat n
  end.

Definition closed_form (n : Z) : Z := n * (n + 1) * (2 * n + 1) / 6.

End CythonDemo.

(** ** Auxiliary definitions for the proofs *)

(** All 256 values of an [unsigned char], and a test run over all of them. *)
Definition all_uchars : list uchar :=
  omap (fun n => Byte.of_N (N.of_nat n)) (seq 0 256).

(** The three products of the weighted sum. *)
Definition red (r : uchar) : float := (of_uchar r * 0.299)%float.
Definition green (g : uchar) : float := (of_uchar g * 0.587)%float.
Definition blue (b : uchar) : float := (of_uchar b * 0.114)%float.

(** A test run over the products of every triple of samples; the products
    are tabulated once. *)
Definition forall_products (P : float -> float -> float -> bool) : bool :=
  let blues := map blue all_uchars in
  let greens := map green all_uchars in
  forallb (fun pr =>
    forallb (fun pg => forallb (fun pb => P pr pg pb) blues) greens)
    (map red all_uchars).

(** ** Definitions for the further properties *)

(** The sum of the 32-bit products [i * i] for the [k] values of [i] from
    [i0] on, as an unbounded integer. *)
Fixpoint int_squares_sum (k : nat) (i0 : Z) : Z :=
  match k with
  | O => 0
  | S k' => CInt.int (i0 * i0) + int_squares_sum k' (i0 + 1)
  end.




(** The preconditions of a call on a source with three or more channels
    (an RGBA image, say): as [call_ok], but for the channel count. *)
Record call_ok_channels (m : mem) (source_image : view3) (dest_image : view2)
    : Prop := {
  okc_channels : (3 <= v3_shape2 source_image)%nat;
  okc_source : (v3_data source_image + size3 source_image <= length m)%nat;
  okc_dest : (v2_data dest_image + size2 dest_image <= length m)%nat;
  okc_disjoint :
    (v3_data source_image + size3 source_image <= v2_data dest_image
     \/ v2_data dest_image + size2 dest_image <= v3_data source_image)%nat;
  okc_height : Z.of_nat (v3_shape0 source_image) <= CInt.INT_MAX;
  okc_width : Z.of_nat (v3_shape1 source_image) <= CInt.INT_MAX
}.

(** A 1 x 1 RGBA source (10, 20, 30, alpha 99) and its destination. *)
Module ExampleRGBA.

Definition memory : mem := [x0a; x14; x1e; x63; x00].
Definition source : view3 := View3 0 1 1 4.
Definition dest : view2 := View2 4 1 1.

End ExampleRGBA.

(** A sample as a double, with one of its three products. *)
Definition red_sample (c : uchar) : float * float := (of_uchar c, red c).
Definition green_sample (c : uchar) : float * float := (of_uchar c, green c).
Definition blue_sample (c : uchar) : float * float := (of_uchar c, blue c).

(** A test run over every triple of samples; what [P] computes from the
    first two samples is shared between the values of the third. *)
Definition forall_samples
    (P : float * float -> float * float -> float * float -> bool) : bool :=
  let blues := map blue_sample all_uchars in
  let greens := map green_sample all_uchars in
  forallb (fun r =>
    forallb (fun g => let f := P r g in forallb f blues) greens)
    (map red_sample all_uchars).

Definition fmax (x y : float) : float := if PrimFloat.leb x y then y else x.
Definition fmin (x y : float) : float := if PrimFloat.leb x y then x else y.

(** The weighted sum lies strictly between the darkest sample minus one and
    the brightest sample plus one. *)
Definition between_samples (r g b : float * float) : bool :=
  let s2 := (snd r + snd g)%float in
  let hi2 := fmax (fst r) (fst g) in
  let lo2 := fmin (fst r) (fst g) in
  (PrimFloat.ltb (s2 + snd b) (fmax hi2 (fst b) + 1)
   && PrimFloat.ltb (fmin lo2 (fst b) - 1) (s2 + snd b))%float%bool.

(** The steps a worker still has to take: four for each pixel it has left,
    less the loads it has done for the current one. *)
Definition stage_index (s : stage) : nat :=
  match s with
  | Load_r => 0
  | Load_g _ => 1
  | Load_b _ _ => 2
  | Store_gray _ _ _ => 3
  end.

Definition steps_left (w : worker) : nat :=
  match w_todo w with
  | [] => 0
  | _ :: _ => 4 * length (w_todo w) - stage_index (w_stage w)
  end.

(** The schedule that runs the workers one after the other, each to its
    end; [i] is the index of the first worker of [ws]. *)
Fixpoint one_by_one (i : nat) (ws : list worker) : list nat :=
  match ws with
  | [] => []
  | w :: ws' => repeat i (steps_left w) ++ one_by_one (S i) ws'
  end.

(** * Properties of the conversions *)

Section Conversions.

Lemma pos_lt_pow2_digits (m : positive) :
  Z.pos m < 2 ^ Z.pos (SpecFloat.digits2_pos m).
Proof.
  induction m as [m IH | m IH |]; simpl SpecFloat.digits2_pos.
  - rewrite Pos2Z.inj_succ, Z.pow_succ_r by lia. lia.
  - rewrite Pos2Z.inj_succ, Z.pow_succ_r by lia. lia.
  - reflexivity.
Qed.

(** A valid binary64 mantissa has at most 53 bits. *)
Lemma valid_mantissa_bound (s : bool) (m : positive) (e : Z) :
  SpecFloat.valid_binary FloatOps.prec FloatOps.emax (S754_finite s m e) = true ->
  Z.pos m < 2 ^ 53.
Proof.
  unfold SpecFloat.valid_binary, SpecFloat.bounded, SpecFloat.canonical_mantissa,
    SpecFloat.fexp, SpecFloat.emin, FloatOps.prec, FloatOps.emax.
  intros H. apply andb_prop in H as [H _]. apply Z.eqb_eq in H.
  pose proof (pos_lt_pow2_digits m) as Hm.
  assert (Hd : Z.pos (SpecFloat.digits2_pos m) <= 53) by lia.
  eapply Z.lt_le_trans; [exact Hm |].
  apply Z.pow_le_mono_r; lia.
Qed.

Lemma shiftl_neg_small (a e k : Z) :
  0 <= a < 2 ^ k -> 0 <= k -> k + e <= 0 -> Z.shiftl a e = 0.
Proof.
  intros Ha Hk He. rewrite <- (Z.opp_involutive e).
  rewrite Z.shiftl_opp_r, Z.shiftr_div_pow2 by lia.
  apply Z.div_small. split; [lia |].
  eapply Z.lt_le_trans; [apply Ha |]. apply Z.pow_le_mono_r; lia.
Qed.

Lemma shiftl_neg_bound (a e k j : Z) :
  0 <= a < 2 ^ k -> 0 <= j -> e < 0 -> k + e <= j -> 0 <= Z.shiftl a e < 2 ^ j.
Proof.
  intros Ha Hj He Hk. rewrite <- (Z.opp_involutive e).
  rewrite Z.shiftl_opp_r, Z.shiftr_div_pow2 by lia.
  assert (H2 : 0 < 2 ^ (- e)) by (apply Z.pow_pos_nonneg; lia).
  split; [apply Z.div_pos; lia |].
  apply Z.div_lt_upper_bound; [exact H2 |].
  rewrite <- Z.pow_add_r by lia.
  eapply Z.lt_le_trans; [apply Ha |]. apply Z.pow_le_mono_r; lia.
Qed.

(** The test on the double is sound for the cast: a double strictly
    between -1 and 256 has an integral part in [0, 255]. *)
Lemma castable_int_part (f : float) :
  castable f = true -> exists z, int_part f = Some z /\ 0 <= z < 256.
Proof.
  unfold castable, int_part. intros H.
  apply andb_prop in H as [Hlo Hhi].
  rewrite ltb_spec in Hlo, Hhi.
  pose proof (Prim2SF_valid f) as Hv.
  destruct (Prim2SF f) as [s | s | | s m e].
  - exists 0. split; [reflexivity | lia].
  - destruct s; vm_compute in Hlo, Hhi; discriminate.
  - vm_compute in Hlo. discriminate.
  - apply valid_mantissa_bound in Hv.
    destruct s.
    + (* negative: above -1, so the integral part is 0 *)
      exists (- Z.shiftl (Z.pos m) e). split; [reflexivity |].
      change (Prim2SF (-1)%float) with (S754_finite true 4503599627370496 (-52)) in Hlo.
      unfold SFltb, SFcompare in Hlo.
      destruct (Z.compare_spec (-52) e) as [He | He | He]; try discriminate.
      * subst e.
        assert (Hm : Z.pos m < 4503599627370496).
        { apply Z.gt_lt.
          destruct (PosDef.Pos.compare_cont Eq 4503599627370496 m) eqn:Hc;
            try discriminate. exact Hc. }
        rewrite (shiftl_neg_small (Z.pos m) (-52) 52); lia.
      * rewrite (shiftl_neg_small (Z.pos m) e 53); lia.
    + exists (Z.shiftl (Z.pos m) e). split; [reflexivity |].
      change (Prim2SF 256%float) with (S754_finite false 4503599627370496 (-44)) in Hhi.
      unfold SFltb, SFcompare in Hhi.
      destruct (Z.compare_spec e (-44)) as [He | He | He]; try discriminate.
      * subst e.
        assert (Hm : Z.pos m < 4503599627370496).
        { destruct (PosDef.Pos.compare_cont Eq m 4503599627370496) eqn:Hc;
            try discriminate. exact Hc. }
        change 256 with (2 ^ 8).
        apply (shiftl_neg_bound (Z.pos m) (-44) 52 8); lia.
      * change 256 with (2 ^ 8).
        apply (shiftl_neg_bound (Z.pos m) e 53 8); lia.
Qed.

Lemma castable_to_uchar (f : float) :
  castable f = true ->
  exists c, to_uchar f = Some c /\ int_part f = Some (uchar_val c).
Proof.
  intros H. destruct (castable_int_part f H) as (z & Hz & Hr).
  unfold to_uchar. rewrite Hz.
  destruct (Z.leb_spec 0 z) as [_ | ?]; [| lia].
  destruct (Byte.of_N (Z.to_N z)) as [c |] eqn:Hc.
  - exists c. split; [reflexivity |].
    apply Byte.to_of_N in Hc. unfold uchar_val. rewrite Hc. f_equal. lia.
  - apply Byte.of_N_None_iff in Hc. lia.
Qed.

Lemma all_uchars_complete (c : uchar) : In c all_uchars.
Proof.
  assert (H : existsb (Byte.eqb c) all_uchars = true)
    by (destruct c; vm_compute; reflexivity).
  apply existsb_exists in H as (c' & Hin & Heq).
  apply Byte.byte_dec_bl in Heq. subst c'. exact Hin.
Qed.

Lemma in_table (h : uchar -> float) (c : uchar) : In (h c) (map h all_uchars).
Proof. apply in_map, all_uchars_complete. Qed.

Lemma forall_products_spec (P : float -> float -> float -> bool) :
  forall_products P = true ->
  forall r g b, P (red r) (green g) (blue b) = true.
Proof.
  unfold forall_products. cbv zeta. intros H r g b.
  rewrite forallb_forall in H. specialize (H _ (in_table red r)).
  rewrite forallb_forall in H. specialize (H _ (in_table green g)).
  rewrite forallb_forall in H. exact (H _ (in_table blue b)).
Qed.

(** The castability test, run over every triple of samples. *)
Lemma luma_castable_computed :
  forall_products (fun pr pg pb => castable (pr + pg + pb)%float) = true.
Proof. vm_cast_no_check (eq_refl true). Qed.

(** The weighted sum of three samples always lies strictly between -1
    and 256. *)
Lemma luma_castable (r g b : uchar) : castable (luma r g b) = true.
Proof. exact (forall_products_spec _ luma_castable_computed r g b). Qed.

(** So the conversion of line 22 is always defined, and it stores the
    integral part of the sum. *)
Lemma luma_to_uchar (r g b : uchar) :
  exists c, to_uchar (luma r g b) = Some c
            /\ int_part (luma r g b) = Some (uchar_val c).
Proof. apply castable_to_uchar, luma_castable. Qed.

End Conversions.

(** * The loops of [grayscale_cython] *)

Section Loops.

Context {A : Type}.
Implicit Types (body : A -> mem -> option mem) (l : list A) (m : mem).

Lemma for_each_app body l1 l2 m :
  for_each body (l1 ++ l2) m =
  match for_each body l1 m with
  | Some m' => for_each body l2 m'
  | None => None
  end.
Proof.
  revert m. induction l1 as [| i l1 IH]; intros m; simpl; [reflexivity |].
  destruct (body i m) as [m' |]; [apply IH | reflexivity].
Qed.

Lemma for_each_map {B : Type} (f : B -> A) body (l : list B) m :
  for_each body (map f l) m = for_each (fun i => body (f i)) l m.
Proof.
  revert m. induction l as [| i l IH]; intros m; simpl; [reflexivity |].
  destruct (body (f i) m) as [m' |]; [apply IH | reflexivity].
Qed.

End Loops.

Lemma int_of_small (n : nat) :
  Z.of_nat n <= CInt.INT_MAX -> CInt.int (Z.of_nat n) = Z.of_nat n.
Proof.
  unfold CInt.INT_MAX, CInt.int, CInt.wrap. intros H.
  change (2 ^ (32 - 1)) with 2147483648. change (2 ^ 32) with 4294967296.
  change (2 ^ 31 - 1) with 2147483647 in H.
  rewrite Z.mod_small by lia. lia.
Qed.

Lemma range_of_nat (n : nat) :
  Z.of_nat n <= CInt.INT_MAX -> range (CInt.int (Z.of_nat n)) = seq 0 n.
Proof.
  intros H. unfold range. rewrite (int_of_small n H), Nat2Z.id. reflexivity.
Qed.

(** The nested loops run the iterations of their rows in row-major order. *)
Lemma rows_loop_iterations (src : view3) (dst : view2) (lo n : nat) (m : mem) :
  rows_loop src dst (seq lo n) m
  = run_iterations src dst (chunk_iterations src lo n) m.
Proof.
  unfold rows_loop, run_iterations, chunk_iterations.
  generalize (seq lo n) as rows. intros rows. revert m.
  induction rows as [| y rows IH]; intros m; simpl; [reflexivity |].
  rewrite for_each_app, for_each_map. unfold row_loop at 1. simpl.
  destruct (for_each _ (range (width_of src)) m) as [m' |]; [apply IH | reflexivity].
Qed.

Lemma grayscale_cython_iterations (src : view3) (dst : view2) (m : mem) :
  grayscale_cython src dst m
  = run_iterations src dst
      (chunk_iterations src 0 (Z.to_nat (height_of src))) m.
Proof. unfold grayscale_cython, range. apply rows_loop_iterations. Qed.

Lemma in_chunk_iterations (src : view3) (lo n : nat) (p : nat * nat) :
  Z.of_nat (v3_shape1 src) <= CInt.INT_MAX ->
  In p (chunk_iterations src lo n)
  <-> (lo <= fst p < lo + n)%nat /\ (snd p < v3_shape1 src)%nat.
Proof.
  intros Hw. unfold chunk_iterations, width_of.
  rewrite (range_of_nat _ Hw), in_flat_map. split.
  - intros (y & Hy & Hp). apply in_map_iff in Hp as (x & <- & Hx).
    apply in_seq in Hy, Hx. simpl. lia.
  - intros [Hy Hx]. exists (fst p). split; [apply in_seq; lia |].
    apply in_map_iff. exists (snd p). split; [destruct p; reflexivity |].
    apply in_seq. lia.
Qed.

(** * One iteration of the loop body *)

Section Kernel.

Variables (src : view3) (dst : view2).

Lemma call_ok_insert (m : mem) (a : nat) (v : uchar) :
  call_ok m src dst -> call_ok (<[a := v]> m) src dst.
Proof.
  intros [H1 H2 H3 H4 H5 H6].
  constructor; rewrite ?length_insert; assumption.
Qed.

Lemma source_addr_bound (m : mem) (y x c : nat) :
  call_ok m src dst -> in_extent src (y, x) -> (c < 3)%nat ->
  (v3_data src <= elem3 src y x c < v3_data src + size3 src)%nat.
Proof.
  intros [Hc _ _ _ _ _] [Hy Hx] Hk. simpl in Hy, Hx.
  unfold elem3, size3. rewrite Hc. nia.
Qed.

Lemma dest_addr_bound (y x : nat) :
  covers src dst -> in_extent src (y, x) ->
  (v2_data dst <= elem2 dst y x < v2_data dst + size2 dst)%nat.
Proof.
  intros [Hr Hc] [Hy Hx]. simpl in Hy, Hx. unfold elem2, size2. nia.
Qed.

(** Distinct pixels of the extent have distinct destination addresses. *)
Lemma dest_addr_inj (p q : nat * nat) :
  covers src dst -> in_extent src p -> in_extent src q ->
  dest_addr dst p = dest_addr dst q -> p = q.
Proof.
  intros [_ Hc] [_ Hp] [_ Hq]. destruct p as [y x], q as [y' x'].
  unfold dest_addr, elem2. simpl in *. intros He.
  assert (y = y') by nia. subst y'. f_equal. lia.
Qed.

(** A store outside the source buffer does not change what the body
    computes. *)
Lemma gray_of_insert (m : mem) (a : nat) (v : uchar) (y x : nat) :
  call_ok m src dst -> in_extent src (y, x) ->
  (a < v3_data src \/ v3_data src + size3 src <= a)%nat ->
  gray_of src (<[a := v]> m) y x = gray_of src m y x.
Proof.
  intros Hok Hin Ha. unfold gray_of, load.
  pose proof (source_addr_bound m y x 0 Hok Hin ltac:(lia)).
  pose proof (source_addr_bound m y x 1 Hok Hin ltac:(lia)).
  pose proof (source_addr_bound m y x 2 Hok Hin ltac:(lia)).
  rewrite !list_lookup_insert_ne by lia. reflexivity.
Qed.

(** Inside the extent the body is defined: its loads are in the source
    buffer, the conversion is representable and the store is in the
    destination buffer. *)
Lemma pixel_defined (m : mem) (y x : nat) :
  call_ok m src dst -> covers src dst -> in_extent src (y, x) ->
  exists v, gray_of src m y x = Some v
            /\ pixel src dst y x m = Some (<[elem2 dst y x := v]> m).
Proof.
  intros Hok Hcov Hin. unfold gray_of, pixel, load.
  pose proof (source_addr_bound m y x 0 Hok Hin ltac:(lia)) as H0.
  pose proof (source_addr_bound m y x 1 Hok Hin ltac:(lia)) as H1.
  pose proof (source_addr_bound m y x 2 Hok Hin ltac:(lia)) as H2.
  pose proof (dest_addr_bound y x Hcov Hin) as Hd.
  pose proof (ok_source _ _ _ Hok) as Hs.
  pose proof (ok_dest _ _ _ Hok) as Ht.
  destruct (lookup_lt_is_Some_2 m (elem3 src y x 0) ltac:(lia)) as [r Hr].
  destruct (lookup_lt_is_Some_2 m (elem3 src y x 1) ltac:(lia)) as [g Hg].
  destruct (lookup_lt_is_Some_2 m (elem3 src y x 2) ltac:(lia)) as [b Hb].
  rewrite Hr, Hg, Hb. simpl.
  destruct (luma_to_uchar r g b) as (v & Hv & _).
  exists v. rewrite Hv. simpl. split; [reflexivity |].
  unfold store. rewrite decide_True by lia. reflexivity.
Qed.

(** What the body stores is the integral part of the weighted sum of
    the three samples of the pixel. *)
Lemma gray_of_value (m : mem) (y x : nat) (v : uchar) :
  gray_of src m y x = Some v ->
  exists r g b,
    m !! elem3 src y x 0 = Some r /\ m !! elem3 src y x 1 = Some g
    /\ m !! elem3 src y x 2 = Some b
    /\ int_part (luma r g b) = Some (uchar_val v).
Proof.
  unfold gray_of, load. intros H.
  destruct (m !! elem3 src y x 0) as [r |]; [| discriminate].
  destruct (m !! elem3 src y x 1) as [g |]; [| discriminate].
  destruct (m !! elem3 src y x 2) as [b |]; [| discriminate].
  simpl in H. exists r, g, b. repeat split.
  destruct (luma_to_uchar r g b) as (c & Hc & Hi).
  rewrite Hc in H. injection H as <-. exact Hi.
Qed.

(** ** Any sequence of iterations inside the extent

    It runs to the end, keeps the size of the memory, leaves every address
    that is not the destination of one of its iterations as it was, and
    stores at the destination of each iteration the value computed from
    the memory before the run. *)
Lemma run_iterations_spec (tr : list (nat * nat)) (m : mem) :
  call_ok m src dst -> covers src dst -> Forall (in_extent src) tr ->
  exists m',
    run_iterations src dst tr m = Some m'
    /\ length m' = length m
    /\ (forall a, ~ In a (map (dest_addr dst) tr) -> m' !! a = m !! a)
    /\ (forall p, In p tr -> m' !! dest_addr dst p = gray_of src m (fst p) (snd p)).
Proof.
  intros Hok Hcov Htr. revert m Hok.
  induction Htr as [| [y x] tr Hp Htr IH]; intros m Hok.
  - exists m. split; [reflexivity |]. split; [reflexivity |].
    split; [intros a _; reflexivity | intros p []].
  - destruct (pixel_defined m y x Hok Hcov Hp) as (v & Hv & Hpx).
    pose proof (dest_addr_bound y x Hcov Hp) as Hd.
    assert (Hout : (elem2 dst y x < v3_data src
                    \/ v3_data src + size3 src <= elem2 dst y x)%nat).
    { destruct (ok_disjoint _ _ _ Hok); lia. }
    destruct (IH _ (call_ok_insert m (elem2 dst y x) v Hok))
      as (m' & Hrun & Hlen & Hframe & Hval).
    exists m'. unfold run_iterations in *. simpl. rewrite Hpx.
    split; [exact Hrun |]. split; [rewrite Hlen; apply length_insert |].
    split.
    + intros a Ha. simpl in Ha.
      rewrite Hframe by tauto.
      apply list_lookup_insert_ne. unfold dest_addr in Ha. simpl in Ha. tauto.
    + assert (Hrest : forall q, In q tr ->
                m' !! dest_addr dst q = gray_of src m (fst q) (snd q)).
      { intros q Hq. rewrite (Hval q Hq).
        destruct q as [y' x']. apply gray_of_insert; [exact Hok | | exact Hout].
        exact (proj1 (List.Forall_forall _ _) Htr _ Hq). }
      intros p [<- | Hq]; [| exact (Hrest p Hq)].
      destruct (in_dec Nat.eq_dec (dest_addr dst (y, x)) (map (dest_addr dst) tr))
        as [Hin | Hnin].
      * apply in_map_iff in Hin as (q & Hq & Hqin).
        assert (q = (y, x)) as ->.
        { apply dest_addr_inj; [exact Hcov | | exact Hp | exact Hq].
          exact (proj1 (List.Forall_forall _ _) Htr _ Hqin). }
        exact (Hrest _ Hqin).
      * rewrite (Hframe _ Hnin). simpl. rewrite Hv.
        apply list_lookup_insert_eq.
        pose proof (ok_dest _ _ _ Hok). unfold dest_addr. simpl. lia.
Qed.

End Kernel.

(** * The whole call *)

Section Call.

Variables (src : view3) (dst : view2).

Lemma height_iterations (m : mem) :
  call_ok m src dst -> Z.to_nat (height_of src) = v3_shape0 src.
Proof.
  intros Hok. unfold height_of.
  rewrite (int_of_small _ (ok_height _ _ _ Hok)). apply Nat2Z.id.
Qed.

(** The iterations of the call are the pixels of the source's extent. *)
Lemma call_iterations (m : mem) (p : nat * nat) :
  call_ok m src dst ->
  In p (chunk_iterations src 0 (Z.to_nat (height_of src))) <-> in_extent src p.
Proof.
  intros Hok. rewrite (height_iterations m Hok).
  rewrite (in_chunk_iterations src 0 _ p (ok_width _ _ _ Hok)).
  unfold in_extent. lia.
Qed.

(** A run of iterations that all lie in the extent depends only on which
    iterations it contains, not on their order or multiplicity. *)
Lemma run_iterations_same_set (tr1 tr2 : list (nat * nat)) (m : mem) :
  call_ok m src dst -> covers src dst ->
  Forall (in_extent src) tr1 ->
  (forall p, In p tr1 <-> In p tr2) ->
  run_iterations src dst tr1 m = run_iterations src dst tr2 m.
Proof.
  intros Hok Hcov H1 Hsame.
  assert (H2 : Forall (in_extent src) tr2).
  { apply List.Forall_forall. intros p Hp. apply Hsame in Hp.
    exact (proj1 (List.Forall_forall _ _) H1 p Hp). }
  destruct (run_iterations_spec src dst tr1 m Hok Hcov H1)
    as (m1 & Hr1 & Hl1 & Hf1 & Hv1).
  destruct (run_iterations_spec src dst tr2 m Hok Hcov H2)
    as (m2 & Hr2 & Hl2 & Hf2 & Hv2).
  rewrite Hr1, Hr2. f_equal. apply list_eq. intros a.
  destruct (in_dec Nat.eq_dec a (map (dest_addr dst) tr1)) as [Hin | Hnin].
  - apply in_map_iff in Hin as (p & <- & Hp).
    rewrite (Hv1 p Hp), (Hv2 p (proj1 (Hsame p) Hp)). reflexivity.
  - rewrite (Hf1 a Hnin). symmetry. apply Hf2.
    intros Hin. apply Hnin.
    apply in_map_iff in Hin as (p & <- & Hp).
    apply in_map. apply Hsame. exact Hp.
Qed.

(** What a call does when the destination covers the source. *)
Lemma grayscale_cython_covering (m : mem) :
  call_ok m src dst -> covers src dst ->
  exists m',
    grayscale_cython src dst m = Some m'
    /\ length m' = length m
    /\ (forall a, (forall y x, in_extent src (y, x) -> a <> elem2 dst y x) ->
                  m' !! a = m !! a)
    /\ (forall y x, in_extent src (y, x) ->
                    m' !! elem2 dst y x = gray_of src m y x).
Proof.
  intros Hok Hcov. rewrite grayscale_cython_iterations.
  set (tr := chunk_iterations src 0 (Z.to_nat (height_of src))).
  assert (Htr : Forall (in_extent src) tr).
  { apply List.Forall_forall. intros p Hp. exact (proj1 (call_iterations m p Hok) Hp). }
  destruct (run_iterations_spec src dst tr m Hok Hcov Htr)
    as (m' & Hrun & Hlen & Hframe & Hval).
  exists m'. split; [exact Hrun |]. split; [exact Hlen |]. split.
  - intros a Ha. apply Hframe. intros Hin.
    apply in_map_iff in Hin as ([y x] & Hq & Hp).
    apply (Ha y x); [exact (proj1 (call_iterations m _ Hok) Hp) | symmetry; exact Hq].
  - intros y x Hin.
    exact (Hval (y, x) (proj2 (call_iterations m (y, x) Hok) Hin)).
Qed.

Lemma same_extent_covers : same_extent src dst -> covers src dst.
Proof. unfold same_extent, covers. lia. Qed.

(** No store of the call falls in the source buffer. *)
Lemma source_not_stored (m : mem) (a : nat) :
  call_ok m src dst -> covers src dst ->
  (v3_data src <= a < v3_data src + size3 src)%nat ->
  forall y x, in_extent src (y, x) -> a <> elem2 dst y x.
Proof.
  intros Hok Hcov Ha y x Hin.
  pose proof (dest_addr_bound src dst y x Hcov Hin).
  destruct (ok_disjoint _ _ _ Hok); lia.
Qed.

(** What the body computes depends on the source buffer only. *)
Lemma gray_of_source_only (m1 m2 : mem) (y x : nat) :
  call_ok m1 src dst -> in_extent src (y, x) ->
  (forall a, (v3_data src <= a < v3_data src + size3 src)%nat ->
             m2 !! a = m1 !! a) ->
  gray_of src m2 y x = gray_of src m1 y x.
Proof.
  intros Hok Hin Hsame. unfold gray_of, load.
  rewrite !Hsame by (eapply source_addr_bound; eauto). reflexivity.
Qed.

End Call.

(** * The contract of [grayscale_cython] *)

Lemma example_call_ok (src : view3) (dst : view2) :
  v3_shape2 src = 3%nat ->
  (v3_shape0 src <= 2)%nat -> (v3_shape1 src <= 2)%nat ->
  (v3_data src + size3 src <= 6)%nat ->
  (6 <= v2_data dst)%nat -> (v2_data dst + size2 dst <= 10)%nat ->
  call_ok Example.memory src dst.
Proof.
  intros Hc Hh Hw Hs Hd Hd'.
  constructor; simpl; unfold CInt.INT_MAX; lia.
Qed.

(** ** Extents beyond the range of a C [int]

    [call_ok] is the contract together with the two bounds that make the
    C [int] variables [height] and [width] hold the extents of the source. *)
Lemma call_ok_contract (m : mem) (src : view3) (dst : view2) :
  call_ok m src dst
  <-> contract m src dst
      /\ Z.of_nat (v3_shape0 src) <= CInt.INT_MAX
      /\ Z.of_nat (v3_shape1 src) <= CInt.INT_MAX.
Proof.
  split.
  - intros [H1 H2 H3 H4 H5 H6].
    split; [constructor; assumption | split; assumption].
  - intros ([H1 H2 H3 H4] & H5 & H6). constructor; assumption.
Qed.

(** An extent from [2 ^ 31] to [2 ^ 32 - 1] is negative once narrowed. *)
Lemma int_wraps_negative (z : Z) :
  2 ^ 31 <= z < 2 ^ 32 -> CInt.int z = z - 2 ^ 32.
Proof.
  unfold CInt.int, CInt.wrap.
  change (2 ^ (32 - 1)) with 2147483648. change (2 ^ 32) with 4294967296.
  change (2 ^ 31) with 2147483648. intros Hz.
  rewrite <- (Z.mod_unique (z + 2147483648) 4294967296 1 (z - 2147483648))
    by lia.
  lia.
Qed.

(** A row has no iteration when the width is not positive. *)
Lemma chunk_iterations_nonpositive (src : view3) (lo n : nat) :
  width_of src <= 0 -> chunk_iterations src lo n = [].
Proof.
  intros Hw. unfold chunk_iterations, range.
  replace (Z.to_nat (width_of src)) with 0%nat by lia.
  generalize (seq lo n). intros l. induction l as [| y l IH]; [reflexivity |].
  simpl. exact IH.
Qed.

(** With a height or a width that is not positive the call stores nothing. *)
Lemma grayscale_cython_nonpositive (m : mem) (src : view3) (dst : view2) :
  height_of src <= 0 \/ width_of src <= 0 ->
  grayscale_cython src dst m = Some m.
Proof.
  intros [Hh | Hw]; rewrite grayscale_cython_iterations.
  - replace (Z.to_nat (height_of src)) with 0%nat by lia. reflexivity.
  - rewrite (chunk_iterations_nonpositive src 0 _ Hw). reflexivity.
Qed.

Lemma elem2_origin (d s0 s1 : nat) : elem2 (View2 d s0 s1) 0 0 = d.
Proof. unfold elem2. cbn [v2_data v2_shape1]. lia. Qed.

(** *** The memory of the huge image *)

Lemma huge_length : length Huge.memory = Z.to_nat 10737418240.
Proof.
  unfold Huge.memory.
  rewrite !length_app, !length_cons, !repeat_length.
  change (length (@nil uchar)) with 0%nat. lia.
Qed.

Lemma huge_first_pixel :
  Huge.memory !! 0%nat = Some x0a /\ Huge.memory !! 1%nat = Some x14
  /\ Huge.memory !! 2%nat = Some x1e.
Proof. repeat split; reflexivity. Qed.

Lemma huge_first_dest : Huge.memory !! Huge.first_dest = Some x07.
Proof.
  unfold Huge.memory, Huge.first_dest.
  rewrite lookup_app_l.
  - apply list_lookup_middle.
    rewrite !length_app, !length_cons, !repeat_length.
    change (length (@nil uchar)) with 0%nat. lia.
  - rewrite !length_app, !length_cons, !repeat_length.
    change (length (@nil uchar)) with 0%nat. lia.
Qed.

Lemma huge_second_dest : Huge.memory !! Huge.second_dest = Some x09.
Proof.
  unfold Huge.memory, Huge.second_dest.
  apply list_lookup_middle.
  rewrite !length_app, !length_cons, !repeat_length.
  change (length (@nil uchar)) with 0%nat. lia.
Qed.

(** The fields of the views are read off without evaluating the sizes,
    which are numbers of [2 ^ 31] and more in unary notation. *)
Ltac huge_views :=
  unfold same_extent, in_extent, size2, size3,
    Huge.source_tall, Huge.source_wide,
    Huge.dest_tall, Huge.dest_tall', Huge.dest_wide;
  cbn [fst snd v3_data v3_shape0 v3_shape1 v3_shape2
       v2_data v2_shape0 v2_shape1].

Lemma huge_pixels : Z.of_nat Huge.pixels = 2147483648.
Proof. apply Z2Nat.id. lia. Qed.

Lemma huge_first_dest_address : Z.of_nat Huge.first_dest = 6442450944.
Proof. apply Z2Nat.id. lia. Qed.

Lemma huge_second_dest_address : Z.of_nat Huge.second_dest = 8589934592.
Proof. apply Z2Nat.id. lia. Qed.

Lemma huge_size : Z.of_nat (length Huge.memory) = 10737418240.
Proof. rewrite huge_length. apply Z2Nat.id. lia. Qed.

(** Both destinations lie behind the source, inside the memory. *)
Lemma huge_contract (src : view3) (dst : view2) :
  v3_data src = 0%nat -> v3_shape2 src = 3%nat ->
  (v3_shape0 src * v3_shape1 src)%nat = Huge.pixels ->
  (v2_shape0 dst * v2_shape1 dst)%nat = Huge.pixels ->
  v2_data dst = Huge.first_dest \/ v2_data dst = Huge.second_dest ->
  contract Huge.memory src dst.
Proof.
  intros Hd Hc Hs Ht Ha.
  pose proof huge_pixels. pose proof huge_first_dest_address.
  pose proof huge_second_dest_address. pose proof huge_size.
  constructor; unfold size3, size2; rewrite ?Hd, ?Hc, ?Hs, ?Ht; lia.
Qed.

Lemma huge_in_extent :
  in_extent Huge.source_tall (0%nat, 0%nat)
  /\ in_extent Huge.source_wide (0%nat, 0%nat).
Proof.
  pose proof huge_pixels. huge_views. lia.
Qed.

Lemma huge_same_extent :
  same_extent Huge.source_tall Huge.dest_tall
  /\ same_extent Huge.source_tall Huge.dest_tall'
  /\ same_extent Huge.source_wide Huge.dest_wide.
Proof. huge_views. repeat split; reflexivity. Qed.

Lemma huge_contract_tall :
  contract Huge.memory Huge.source_tall Huge.dest_tall
  /\ contract Huge.memory Huge.source_tall Huge.dest_tall'.
Proof.
  split; apply huge_contract; huge_views; lia.
Qed.

Lemma huge_contract_wide :
  contract Huge.memory Huge.source_wide Huge.dest_wide.
Proof.
  apply huge_contract; huge_views; lia.
Qed.

Lemma huge_negative : CInt.int (Z.of_nat Huge.pixels) < 0.
Proof.
  rewrite huge_pixels.
  rewrite int_wraps_negative
    by (change (2 ^ 31) with 2147483648; change (2 ^ 32) with 4294967296; lia).
  change (2 ^ 32) with 4294967296. lia.
Qed.

Lemma huge_tall_unchanged (m : mem) (dst : view2) :
  grayscale_cython Huge.source_tall dst m = Some m.
Proof.
  apply grayscale_cython_nonpositive. left.
  unfold height_of, Huge.source_tall. cbn [v3_shape0].
  pose proof huge_negative. lia.
Qed.

Lemma huge_wide_unchanged (m : mem) (dst : view2) :
  grayscale_cython Huge.source_wide dst m = Some m.
Proof.
  apply grayscale_cython_nonpositive. right.
  unfold width_of, Huge.source_wide. cbn [v3_shape1].
  pose proof huge_negative. lia.
Qed.

(** C1, as the code has it.  For every three-channel source of H x W pixels
    with [H <= INT_MAX] and [W <= INT_MAX] (the two bounds are fields of
    [call_ok]) and every destination of the same extent, the call returns,
    and afterwards every destination element [dest[y][x]] with [y < H] and
    [x < W] holds the integral part (truncation toward zero) of the double
    [source[y][x][0] * 0.299 + source[y][x][1] * 0.587 + source[y][x][2] * 0.114],
    summed left to right and truncated once. *)
Theorem grayscale_cython_pixels (m : mem) (src : view3) (dst : view2) :
  call_ok m src dst -> same_extent src dst ->
  exists m',
    grayscale_cython src dst m = Some m'
    /\ forall y x, (y < v3_shape0 src)%nat -> (x < v3_shape1 src)%nat ->
       exists r g b d,
         m !! elem3 src y x 0 = Some r
         /\ m !! elem3 src y x 1 = Some g
         /\ m !! elem3 src y x 2 = Some b
         /\ m' !! elem2 dst y x = Some d
         /\ int_part (of_uchar r * 0.299 + of_uchar g * 0.587
                      + of_uchar b * 0.114)%float
            = Some (uchar_val d).
Proof.
  intros Hok Hsame. pose proof (same_extent_covers src dst Hsame) as Hcov.
  destruct (grayscale_cython_covering src dst m Hok Hcov)
    as (m' & Hrun & _ & _ & Hval).
  exists m'. split; [exact Hrun |]. intros y x Hy Hx.
  assert (Hin : in_extent src (y, x)) by (split; assumption).
  destruct (pixel_defined src dst m y x Hok Hcov Hin) as (d & Hd & _).
  destruct (gray_of_value src m y x d Hd) as (r & g & b & Hr & Hg & Hb & Hi).
  exists r, g, b, d. rewrite (Hval y x Hin). auto.
Qed.

Lemma grayscale_cython_pixels_witness :
  exists m',
    grayscale_cython Example.source Example.dest Example.memory = Some m'
    /\ m' !! 6%nat = Some x12 /\ m' !! 7%nat = Some xff.
Proof.
  destruct (grayscale_cython_pixels Example.memory Example.source Example.dest)
    as (m' & Hrun & _).
  - apply example_call_ok; cbv; lia.
  - split; reflexivity.
  - exists m'. split; [exact Hrun |].
    vm_compute in Hrun. injection Hrun as <-. split; reflexivity.
Defined.

(** C1 as stated, for every source image, fails on an image of one row of
    [2 ^ 31] pixels: the width narrowed to the C [int] [width] is negative,
    the column loop does not run, and [dest[0][0]] keeps its 7 although
    the pixel (10, 20, 30) of [source[0][0]] converts to 18. *)
Lemma wide_image_not_converted :
  contract Huge.memory Huge.source_wide Huge.dest_wide
  /\ same_extent Huge.source_wide Huge.dest_wide
  /\ in_extent Huge.source_wide (0%nat, 0%nat)
  /\ Huge.memory !! elem3 Huge.source_wide 0 0 0 = Some x0a
  /\ Huge.memory !! elem3 Huge.source_wide 0 0 1 = Some x14
  /\ Huge.memory !! elem3 Huge.source_wide 0 0 2 = Some x1e
  /\ int_part (luma x0a x14 x1e) = Some 18
  /\ exists m',
       grayscale_cython Huge.source_wide Huge.dest_wide Huge.memory = Some m'
       /\ m' !! elem2 Huge.dest_wide 0 0 = Some x07
       /\ uchar_val x07 = 7.
Proof.
  split; [exact huge_contract_wide |].
  split; [exact (proj2 (proj2 huge_same_extent)) |].
  split; [exact (proj2 huge_in_extent) |].
  change (elem3 Huge.source_wide 0 0 0) with 0%nat.
  change (elem3 Huge.source_wide 0 0 1) with 1%nat.
  change (elem3 Huge.source_wide 0 0 2) with 2%nat.
  destruct huge_first_pixel as (Hr & Hg & Hb).
  split; [exact Hr |]. split; [exact Hg |]. split; [exact Hb |].
  split; [reflexivity |].
  exists Huge.memory. split; [apply huge_wide_unchanged |].
  split; [| reflexivity].
  unfold Huge.dest_wide. rewrite elem2_origin. exact huge_first_dest.
Qed.

(** C10. For every source and destination of matching extent, the call
    leaves the source image as it was: every element [source[y][x][c]]
    has after the call the value it had before. *)
Theorem grayscale_cython_source_unchanged (m : mem) (src : view3) (dst : view2) :
  call_ok m src dst -> same_extent src dst ->
  exists m',
    grayscale_cython src dst m = Some m'
    /\ forall y x c,
         (y < v3_shape0 src)%nat -> (x < v3_shape1 src)%nat -> (c < 3)%nat ->
         m' !! elem3 src y x c = m !! elem3 src y x c.
Proof.
  intros Hok Hsame. pose proof (same_extent_covers src dst Hsame) as Hcov.
  destruct (grayscale_cython_covering src dst m Hok Hcov)
    as (m' & Hrun & _ & Hframe & _).
  exists m'. split; [exact Hrun |]. intros y x c Hy Hx Hc.
  apply Hframe. apply (source_not_stored src dst m _ Hok Hcov).
  apply (source_addr_bound src dst m); [exact Hok | split; assumption | exact Hc].
Qed.

Lemma grayscale_cython_source_unchanged_witness :
  exists m',
    grayscale_cython Example.source Example.dest Example.memory = Some m'
    /\ firstn 6 m' = firstn 6 Example.memory.
Proof.
  destruct (grayscale_cython_source_unchanged
              Example.memory Example.source Example.dest)
    as (m' & Hrun & _).
  - apply example_call_ok; cbv; lia.
  - split; reflexivity.
  - exists m'. split; [exact Hrun |].
    vm_compute in Hrun. injection Hrun as <-. reflexivity.
Defined.

(** C9. For an empty 0 x 0 source with a 0 x 0 destination the call
    performs no store and returns: it has no iteration to run, and the
    memory is returned as it was. *)
Theorem grayscale_cython_empty (m : mem) (src : view3) (dst : view2) :
  v3_shape0 src = 0%nat -> v3_shape1 src = 0%nat ->
  v2_shape0 dst = 0%nat -> v2_shape1 dst = 0%nat ->
  chunk_iterations src 0 (Z.to_nat (height_of src)) = []
  /\ grayscale_cython src dst m = Some m.
Proof.
  intros H0 _ _ _. unfold grayscale_cython, height_of. rewrite H0.
  split; reflexivity.
Qed.

Lemma grayscale_cython_empty_witness :
  grayscale_cython Example.source_0x0 Example.dest_0x0 Example.memory
  = Some Example.memory.
Proof.
  apply (grayscale_cython_empty
           Example.memory Example.source_0x0 Example.dest_0x0);
    reflexivity.
Defined.

(** C6, as the code has it.  Every pixel with the samples R = 10, G = 20,
    B = 30 of a source with at most [INT_MAX] rows and at most [INT_MAX]
    columns (the two bounds are fields of [call_ok]) gives the output pixel
    18, the integral part of [10 * 0.299 + 20 * 0.587 + 30 * 0.114]. *)
Theorem grayscale_cython_10_20_30 (m : mem) (src : view3) (dst : view2) (y x : nat) :
  call_ok m src dst -> same_extent src dst ->
  (y < v3_shape0 src)%nat -> (x < v3_shape1 src)%nat ->
  m !! elem3 src y x 0 = Some x0a ->
  m !! elem3 src y x 1 = Some x14 ->
  m !! elem3 src y x 2 = Some x1e ->
  exists m',
    grayscale_cython src dst m = Some m'
    /\ m' !! elem2 dst y x = Some x12
    /\ uchar_val x12 = 18
    /\ int_part (10 * 0.299 + 20 * 0.587 + 30 * 0.114)%float = Some 18.
Proof.
  intros Hok Hsame Hy Hx Hr Hg Hb.
  pose proof (same_extent_covers src dst Hsame) as Hcov.
  destruct (grayscale_cython_covering src dst m Hok Hcov)
    as (m' & Hrun & _ & _ & Hval).
  exists m'. split; [exact Hrun |]. split; [| split; reflexivity].
  rewrite (Hval y x) by (split; assumption).
  unfold gray_of, load. rewrite Hr, Hg, Hb. reflexivity.
Qed.

Lemma grayscale_cython_10_20_30_witness :
  exists m',
    grayscale_cython Example.source Example.dest Example.memory = Some m'
    /\ m' !! 6%nat = Some x12.
Proof.
  destruct (grayscale_cython_10_20_30
              Example.memory Example.source Example.dest 0 0)
    as (m' & Hrun & Hd & _).
  - apply example_call_ok; cbv; lia.
  - split; reflexivity.
  - simpl; lia.
  - simpl; lia.
  - reflexivity.
  - reflexivity.
  - reflexivity.
  - exists m'. split; [exact Hrun | exact Hd].
Defined.

(** C6 as stated, for every source pixel, fails on an image of [2 ^ 31]
    rows of one pixel: the height narrowed to the C [int] [height] is
    negative, no row is converted, and the output pixel of the source pixel
    (10, 20, 30) at [(0, 0)] is the 7 the destination held, not 18. *)
Lemma tall_image_10_20_30_not_18 :
  contract Huge.memory Huge.source_tall Huge.dest_tall
  /\ same_extent Huge.source_tall Huge.dest_tall
  /\ in_extent Huge.source_tall (0%nat, 0%nat)
  /\ Huge.memory !! elem3 Huge.source_tall 0 0 0 = Some x0a
  /\ Huge.memory !! elem3 Huge.source_tall 0 0 1 = Some x14
  /\ Huge.memory !! elem3 Huge.source_tall 0 0 2 = Some x1e
  /\ exists m',
       grayscale_cython Huge.source_tall Huge.dest_tall Huge.memory = Some m'
       /\ m' !! elem2 Huge.dest_tall 0 0 = Some x07
       /\ uchar_val x07 <> 18.
Proof.
  split; [exact (proj1 huge_contract_tall) |].
  split; [exact (proj1 huge_same_extent) |].
  split; [exact (proj1 huge_in_extent) |].
  change (elem3 Huge.source_tall 0 0 0) with 0%nat.
  change (elem3 Huge.source_tall 0 0 1) with 1%nat.
  change (elem3 Huge.source_tall 0 0 2) with 2%nat.
  destruct huge_first_pixel as (Hr & Hg & Hb).
  split; [exact Hr |]. split; [exact Hg |]. split; [exact Hb |].
  exists Huge.memory. split; [apply huge_tall_unchanged |].
  split; [| discriminate].
  unfold Huge.dest_tall. rewrite elem2_origin. exact huge_first_dest.
Qed.

(** C5, as the code has it.  For every source of matching extent, with at
    most [INT_MAX] rows and at most [INT_MAX] columns (the two bounds are
    fields of [call_ok]), whose samples are all 255, every destination
    pixel is 255: in double precision
    [255 * 0.299 + 255 * 0.587 + 255 * 0.114] is exactly 255. *)
Theorem grayscale_cython_white (m : mem) (src : view3) (dst : view2) :
  call_ok m src dst -> same_extent src dst ->
  (forall y x c,
     (y < v3_shape0 src)%nat -> (x < v3_shape1 src)%nat -> (c < 3)%nat ->
     m !! elem3 src y x c = Some xff) ->
  exists m',
    grayscale_cython src dst m = Some m'
    /\ (forall y x, (y < v3_shape0 src)%nat -> (x < v3_shape1 src)%nat ->
                    m' !! elem2 dst y x = Some xff)
    /\ uchar_val xff = 255
    /\ int_part (255 * 0.299 + 255 * 0.587 + 255 * 0.114)%float = Some 255.
Proof.
  intros Hok Hsame Hwhite.
  pose proof (same_extent_covers src dst Hsame) as Hcov.
  destruct (grayscale_cython_covering src dst m Hok Hcov)
    as (m' & Hrun & _ & _ & Hval).
  exists m'. split; [exact Hrun |]. split; [| split; reflexivity].
  intros y x Hy Hx. rewrite (Hval y x) by (split; assumption).
  unfold gray_of, load. rewrite !Hwhite by lia. reflexivity.
Qed.

Lemma grayscale_cython_white_witness :
  exists m',
    grayscale_cython Example.white_1x1 Example.dest_1x1 Example.memory = Some m'
    /\ m' !! 6%nat = Some xff.
Proof.
  destruct (grayscale_cython_white
              Example.memory Example.white_1x1 Example.dest_1x1)
    as (m' & Hrun & Hd & _).
  - apply example_call_ok; cbv; lia.
  - split; reflexivity.
  - intros y x c Hy Hx Hc.
    assert (y = 0%nat) as -> by (cbv in Hy; lia).
    assert (x = 0%nat) as -> by (cbv in Hx; lia).
    destruct c as [| [| [| c]]]; [reflexivity | reflexivity | reflexivity | lia].
  - exists m'. split; [exact Hrun |]. apply (Hd 0%nat 0%nat); cbv; lia.
Defined.

(** C5 as stated fails: the all-255 pixel of the example converts to 255,
    not to 254. *)
Lemma white_pixel_is_not_254 :
  same_extent Example.white_1x1 Example.dest_1x1
  /\ (forall c, (c < 3)%nat ->
        Example.memory !! elem3 Example.white_1x1 0 0 c = Some xff)
  /\ exists m' d,
       grayscale_cython Example.white_1x1 Example.dest_1x1 Example.memory
       = Some m'
       /\ m' !! elem2 Example.dest_1x1 0 0 = Some d
       /\ uchar_val d <> 254.
Proof.
  split; [split; reflexivity |]. split.
  - intros c Hc.
    destruct c as [| [| [| c]]]; [reflexivity | reflexivity | reflexivity | lia].
  - eexists _, _. split; [vm_compute; reflexivity |].
    split; [reflexivity | discriminate].
Qed.

Lemma call_ok_length (m m' : mem) (src : view3) (dst : view2) :
  length m' = length m -> call_ok m src dst -> call_ok m' src dst.
Proof.
  intros Hlen [H1 H2 H3 H4 H5 H6]. constructor; rewrite ?Hlen; assumption.
Qed.

(** C7, as the code has it.  Running the call twice on the same source of
    at most [INT_MAX] rows and at most [INT_MAX] columns (the two bounds
    are fields of [call_ok]) into two separate destination buffers,
    whatever they held before, gives two destinations with the same
    contents. *)
Theorem grayscale_cython_twice (m : mem) (src : view3) (dst1 dst2 : view2) :
  call_ok m src dst1 -> call_ok m src dst2 ->
  same_extent src dst1 -> same_extent src dst2 ->
  (v2_data dst1 + size2 dst1 <= v2_data dst2
   \/ v2_data dst2 + size2 dst2 <= v2_data dst1)%nat ->
  exists m1 m2,
    grayscale_cython src dst1 m = Some m1
    /\ grayscale_cython src dst2 m1 = Some m2
    /\ forall y x, (y < v3_shape0 src)%nat -> (x < v3_shape1 src)%nat ->
       exists d, m2 !! elem2 dst1 y x = Some d /\ m2 !! elem2 dst2 y x = Some d.
Proof.
  intros Hok1 Hok2 Hs1 Hs2 Hsep.
  pose proof (same_extent_covers src dst1 Hs1) as Hc1.
  pose proof (same_extent_covers src dst2 Hs2) as Hc2.
  destruct (grayscale_cython_covering src dst1 m Hok1 Hc1)
    as (m1 & Hrun1 & Hlen1 & Hframe1 & Hval1).
  pose proof (call_ok_length m m1 src dst2 Hlen1 Hok2) as Hok2'.
  destruct (grayscale_cython_covering src dst2 m1 Hok2' Hc2)
    as (m2 & Hrun2 & _ & Hframe2 & Hval2).
  exists m1, m2. split; [exact Hrun1 |]. split; [exact Hrun2 |].
  intros y x Hy Hx.
  assert (Hin : in_extent src (y, x)) by (split; assumption).
  destruct (pixel_defined src dst1 m y x Hok1 Hc1 Hin) as (d & Hd & _).
  exists d. split.
  - rewrite Hframe2; [rewrite (Hval1 y x Hin); exact Hd |].
    intros y' x' Hin'.
    pose proof (dest_addr_bound src dst1 y x Hc1 Hin).
    pose proof (dest_addr_bound src dst2 y' x' Hc2 Hin').
    lia.
  - rewrite (Hval2 y x Hin), <- Hd.
    apply (gray_of_source_only src dst1 m m1 y x Hok1 Hin).
    intros a Ha. apply Hframe1.
    exact (source_not_stored src dst1 m a Hok1 Hc1 Ha).
Qed.

Lemma grayscale_cython_twice_witness :
  exists m1 m2,
    grayscale_cython Example.source Example.dest Example.memory = Some m1
    /\ grayscale_cython Example.source Example.dest' m1 = Some m2
    /\ firstn 2 (skipn 6 m2) = firstn 2 (skipn 8 m2).
Proof.
  destruct (grayscale_cython_twice
              Example.memory Example.source Example.dest Example.dest')
    as (m1 & m2 & Hrun1 & Hrun2 & _).
  - apply example_call_ok; cbv; lia.
  - apply example_call_ok; cbv; lia.
  - split; reflexivity.
  - split; reflexivity.
  - cbv; lia.
  - exists m1, m2. split; [exact Hrun1 |]. split; [exact Hrun2 |].
    vm_compute in Hrun1. injection Hrun1 as <-.
    vm_compute in Hrun2. injection Hrun2 as <-. reflexivity.
Defined.

(** C7 as stated, for every source image, fails on an image of [2 ^ 31]
    rows of one pixel: neither call converts a row, so the two separate
    destinations keep what they held before, a 7 and a 9 at [(0, 0)]. *)
Lemma tall_image_twice_differs :
  contract Huge.memory Huge.source_tall Huge.dest_tall
  /\ contract Huge.memory Huge.source_tall Huge.dest_tall'
  /\ same_extent Huge.source_tall Huge.dest_tall
  /\ same_extent Huge.source_tall Huge.dest_tall'
  /\ (v2_data Huge.dest_tall + size2 Huge.dest_tall
      <= v2_data Huge.dest_tall')%nat
  /\ in_extent Huge.source_tall (0%nat, 0%nat)
  /\ exists m1 m2,
       grayscale_cython Huge.source_tall Huge.dest_tall Huge.memory = Some m1
       /\ grayscale_cython Huge.source_tall Huge.dest_tall' m1 = Some m2
       /\ m2 !! elem2 Huge.dest_tall 0 0 = Some x07
       /\ m2 !! elem2 Huge.dest_tall' 0 0 = Some x09.
Proof.
  split; [exact (proj1 huge_contract_tall) |].
  split; [exact (proj2 huge_contract_tall) |].
  split; [exact (proj1 huge_same_extent) |].
  split; [exact (proj1 (proj2 huge_same_extent)) |].
  split.
  { pose proof huge_pixels. pose proof huge_first_dest_address.
    pose proof huge_second_dest_address. huge_views. lia. }
  split; [exact (proj1 huge_in_extent) |].
  exists Huge.memory, Huge.memory.
  split; [apply huge_tall_unchanged |]. split; [apply huge_tall_unchanged |].
  unfold Huge.dest_tall, Huge.dest_tall'. rewrite !elem2_origin.
  split; [exact huge_first_dest | exact huge_second_dest].
Qed.

(** C8, as the code has it.  When the destination has at least as many
    rows and at least as many columns as the source, and strictly more of
    one of them, the call returns; it stores only to the elements
    [dest[y][x]] with [y] and [x] inside the source's extent, and every
    destination element outside that extent keeps its value. *)
Theorem grayscale_cython_larger_dest (m : mem) (src : view3) (dst : view2) :
  call_ok m src dst -> covers src dst ->
  (v3_shape0 src < v2_shape0 dst \/ v3_shape1 src < v2_shape1 dst)%nat ->
  exists m',
    grayscale_cython src dst m = Some m'
    /\ (forall a,
          (forall y x, (y < v3_shape0 src)%nat -> (x < v3_shape1 src)%nat ->
                       a <> elem2 dst y x) ->
          m' !! a = m !! a)
    /\ (forall y x,
          (y < v2_shape0 dst)%nat -> (x < v2_shape1 dst)%nat ->
          ~ ((y < v3_shape0 src)%nat /\ (x < v3_shape1 src)%nat) ->
          m' !! elem2 dst y x = m !! elem2 dst y x).
Proof.
  intros Hok Hcov _.
  destruct (grayscale_cython_covering src dst m Hok Hcov)
    as (m' & Hrun & _ & Hframe & _).
  assert (Hwrites : forall a,
            (forall y x, (y < v3_shape0 src)%nat -> (x < v3_shape1 src)%nat ->
                         a <> elem2 dst y x) ->
            m' !! a = m !! a).
  { intros a Ha. apply Hframe. intros y x [Hy Hx]. apply Ha; assumption. }
  exists m'. split; [exact Hrun |]. split; [exact Hwrites |].
  intros y x Hy Hx Hout. apply Hwrites. intros y' x' Hy' Hx' He.
  destruct Hcov as [_ Hc]. unfold elem2 in He.
  assert (y = y') by nia. subst y'.
  assert (x = x') by lia. subst x'. tauto.
Qed.

Lemma grayscale_cython_larger_dest_witness :
  exists m',
    grayscale_cython Example.source_1x1 Example.dest_2x2 Example.memory = Some m'
    /\ skipn 7 m' = skipn 7 Example.memory.
Proof.
  destruct (grayscale_cython_larger_dest
              Example.memory Example.source_1x1 Example.dest_2x2)
    as (m' & Hrun & _).
  - apply example_call_ok; cbv; lia.
  - split; cbv; lia.
  - left. cbv. lia.
  - exists m'. split; [exact Hrun |].
    vm_compute in Hrun. injection Hrun as <-. reflexivity.
Defined.

(** C8 as stated fails when the destination has more rows but fewer
    columns than the source: with a 1 x 2 source and a 2 x 1 destination
    the store to [dest[0, 1]] lands on the element [dest[1][0]], which is
    outside the source's extent, and changes it. *)
Lemma more_rows_fewer_columns :
  (v3_shape0 Example.source < v2_shape0 Example.dest_2x1)%nat
  /\ ~ (1 < v3_shape0 Example.source)%nat
  /\ exists m',
       grayscale_cython Example.source Example.dest_2x1 Example.memory = Some m'
       /\ Example.memory !! elem2 Example.dest_2x1 1 0 = Some x00
       /\ m' !! elem2 Example.dest_2x1 1 0 = Some xff.
Proof.
  split; [cbv; lia |]. split; [cbv; lia |].
  eexists. split; [vm_compute; reflexivity |]. split; reflexivity.
Qed.

(** C2, as the code has it.  For a source of H x W pixels with
    [H <= INT_MAX] and [W <= INT_MAX] (the two bounds are fields of
    [call_ok]) and a destination of H' x W' elements with [H <> H'] or
    [W <> W'] that covers the source, the call converts the image as it
    does for matching extents instead of rejecting it: it returns, and
    afterwards every [dest[y][x]] with [y < H] and [x < W] holds the
    converted pixel of [source[y][x]], and every other byte of the memory,
    the destination elements outside the source's extent among them, holds
    what it held before. *)
Theorem grayscale_cython_mismatch_unchecked (m : mem) (src : view3) (dst : view2) :
  call_ok m src dst -> covers src dst ->
  (v3_shape0 src <> v2_shape0 dst \/ v3_shape1 src <> v2_shape1 dst) ->
  exists m',
    grayscale_cython src dst m = Some m'
    /\ (forall y x, (y < v3_shape0 src)%nat -> (x < v3_shape1 src)%nat ->
          exists r g b d,
            m !! elem3 src y x 0 = Some r
            /\ m !! elem3 src y x 1 = Some g
            /\ m !! elem3 src y x 2 = Some b
            /\ m' !! elem2 dst y x = Some d
            /\ int_part (luma r g b) = Some (uchar_val d))
    /\ (forall a,
          (forall y x, (y < v3_shape0 src)%nat -> (x < v3_shape1 src)%nat ->
                       a <> elem2 dst y x) ->
          m' !! a = m !! a).
Proof.
  intros Hok Hcov _.
  destruct (grayscale_cython_covering src dst m Hok Hcov)
    as (m' & Hrun & _ & Hframe & Hval).
  exists m'. split; [exact Hrun |]. split.
  - intros y x Hy Hx.
    assert (Hin : in_extent src (y, x)) by (split; assumption).
    destruct (pixel_defined src dst m y x Hok Hcov Hin) as (d & Hd & _).
    destruct (gray_of_value src m y x d Hd) as (r & g & b & Hr & Hg & Hb & Hi).
    exists r, g, b, d. rewrite (Hval y x Hin). auto.
  - intros a Ha. apply Hframe. intros y x [Hy Hx]. apply Ha; assumption.
Qed.

Lemma grayscale_cython_mismatch_unchecked_witness :
  exists m',
    grayscale_cython Example.source_1x1 Example.dest_2x2 Example.memory = Some m'
    /\ m' = [x0a; x14; x1e; xff; xff; xff; x12; x00; x07; x09].
Proof.
  destruct (grayscale_cython_mismatch_unchecked
              Example.memory Example.source_1x1 Example.dest_2x2)
    as (m' & Hrun & _).
  - apply example_call_ok; cbv; lia.
  - split; cbv; lia.
  - left. cbv. lia.
  - exists m'. split; [exact Hrun |].
    vm_compute in Hrun. injection Hrun as <-. reflexivity.
Defined.

(** C2 as stated fails: with a 1 x 1 source and a 2 x 2 destination the
    call returns normally and has changed [dest[0][0]]. *)
Lemma mismatch_not_rejected :
  v3_shape0 Example.source_1x1 <> v2_shape0 Example.dest_2x2
  /\ exists m',
       grayscale_cython Example.source_1x1 Example.dest_2x2 Example.memory
       = Some m'
       /\ Example.memory !! elem2 Example.dest_2x2 0 0 = Some x00
       /\ m' !! elem2 Example.dest_2x2 0 0 = Some x12.
Proof.
  split; [cbv; lia |].
  eexists. split; [vm_compute; reflexivity |]. split; reflexivity.
Qed.

(** * The [prange] loop shared between workers *)

Section Workers.

Lemma interleaving_In {A : Type} (ts : list (list A)) (tr : list A) :
  interleaving ts tr ->
  forall a, In a tr <-> exists t, In t ts /\ In a t.
Proof.
  induction 1 as [ts Hts | ts1 ts2 a0 t tr _ IH]; intros a.
  - split; [intros [] |]. intros (t & Ht & Ha).
    rewrite (proj1 (List.Forall_forall _ _) Hts t Ht) in Ha. destruct Ha.
  - simpl. rewrite IH. split.
    + intros [<- | (t' & Ht' & Ha)].
      * exists (a0 :: t). split; [apply in_elt | left; reflexivity].
      * apply in_app_iff in Ht' as [Ht' | [<- | Ht']].
        -- exists t'. split; [apply in_app_iff; left; exact Ht' | exact Ha].
        -- exists (a0 :: t). split; [apply in_elt | right; exact Ha].
        -- exists t'. split; [apply in_app_iff; right; right; exact Ht' | exact Ha].
    + intros (t' & Ht' & Ha).
      apply in_app_iff in Ht' as [Ht' | [<- | Ht']].
      * right. exists t'. split; [apply in_app_iff; left; exact Ht' | exact Ha].
      * destruct Ha as [Ha | Ha]; [left; exact Ha |].
        right. exists t. split; [apply in_elt | exact Ha].
      * right. exists t'. split; [apply in_app_iff; right; right; exact Ht' | exact Ha].
Qed.

Lemma interleaving_idle {A : Type} (ts : list (list A)) (tr : list A) :
  interleaving ts tr -> interleaving ([] :: ts) tr.
Proof.
  induction 1 as [ts Hts | ts1 ts2 a t tr _ IH].
  - apply interleaving_done. constructor; [reflexivity | exact Hts].
  - exact (interleaving_step ([] :: ts1) ts2 a t tr IH).
Qed.

(** The workers run one after the other, each to its end, is one of the
    interleavings: there is always one. *)
Lemma interleaving_concat {A : Type} (ts : list (list A)) :
  interleaving ts (concat ts).
Proof.
  induction ts as [| t ts IH]; simpl.
  - apply interleaving_done. constructor.
  - induction t as [| a t IHt]; simpl.
    + apply interleaving_idle, IH.
    + exact (interleaving_step [] ts a t (t ++ concat ts) IHt).
Qed.

(** The chunks of a partition cover the rows from [lo] on, up to the sum
    of the chunk sizes. *)
Lemma chunks_rows (sizes : list nat) (lo y : nat) :
  (exists c, In c (chunks lo sizes) /\ (fst c <= y < fst c + snd c)%nat)
  <-> (lo <= y < lo + list_sum sizes)%nat.
Proof.
  revert lo. induction sizes as [| n sizes IH]; intros lo; simpl.
  - split; [intros (c & [] & _) | lia].
  - split.
    + intros (c & [<- | Hc] & Hy); [simpl in Hy; lia |].
      assert (lo + n <= y < lo + n + list_sum sizes)%nat; [| lia].
      apply IH. exists c. split; assumption.
    + intros Hy. destruct (Nat.lt_ge_cases y (lo + n)) as [Hlt | Hge].
      * exists (lo, n). split; [left; reflexivity | simpl; lia].
      * destruct (proj2 (IH (lo + n)%nat)) as (c & Hc & Hy'); [lia |].
        exists c. split; [right; exact Hc | exact Hy'].
Qed.

(** Together the workers hold exactly the iterations of the rows below the
    sum of the chunk sizes. *)
Lemma workers_iterations (src : view3) (sizes : list nat) (p : nat * nat) :
  Z.of_nat (v3_shape1 src) <= CInt.INT_MAX ->
  (exists t, In t (workers src sizes) /\ In p t)
  <-> (fst p < list_sum sizes)%nat /\ (snd p < v3_shape1 src)%nat.
Proof.
  intros Hw. unfold workers. split.
  - intros (t & Ht & Hp). apply in_map_iff in Ht as (c & <- & Hc).
    apply (in_chunk_iterations src _ _ p Hw) in Hp as [Hy Hx].
    split; [| exact Hx].
    assert (0 <= fst p < 0 + list_sum sizes)%nat; [| lia].
    apply chunks_rows. exists c. split; assumption.
  - intros [Hy Hx].
    destruct (proj2 (chunks_rows sizes 0 (fst p))) as (c & Hc & Hy'); [lia |].
    exists (chunk_iterations src (fst c) (snd c)). split.
    + apply in_map_iff. exists c. split; [reflexivity | exact Hc].
    + apply (in_chunk_iterations src _ _ p Hw). split; assumption.
Qed.

End Workers.

(** * The workers step by step *)

Section Team.

Variables (src : view3) (dst : view2) (m0 : mem).
Hypothesis Hok : call_ok m0 src dst.
Hypothesis Hcov : covers src dst.

(** While the team runs, the source buffer reads as at the start. *)
Lemma team_load (ws : list worker) (m : mem) (y x c : nat) :
  team_inv src dst m0 ws m -> in_extent src (y, x) -> (c < 3)%nat ->
  exists v, m0 !! elem3 src y x c = Some v /\ load m (elem3 src y x c) = Some v.
Proof.
  intros Hinv Hin Hc.
  pose proof (source_addr_bound src dst m0 y x c Hok Hin Hc) as Ha.
  pose proof (ok_source _ _ _ Hok) as Hs.
  destruct (lookup_lt_is_Some_2 m0 (elem3 src y x c) ltac:(lia)) as [v Hv].
  exists v. split; [exact Hv |]. unfold load. rewrite <- Hv.
  apply (inv_frame _ _ _ _ _ Hinv).
  exact (source_not_stored src dst m0 _ Hok Hcov Ha).
Qed.

(** A worker that moves on inside its iteration keeps the invariant. *)
Lemma team_inv_stage (ws : list worker) (m : mem) (i : nat) (w : worker)
    (s : stage) :
  team_inv src dst m0 ws m -> ws !! i = Some w ->
  worker_ok src m0 (Worker s (w_todo w)) ->
  team_inv src dst m0 (<[i := Worker s (w_todo w)]> ws) m.
Proof.
  intros [Hlen Hframe Hws Hdone] Hw Hnew. constructor.
  - exact Hlen.
  - exact Hframe.
  - intros j w' Hj. apply list_lookup_insert_Some in Hj as [(_ & <- & _) | [_ Hj]].
    + exact Hnew.
    + exact (Hws j w' Hj).
  - intros p Hp Hnone. apply (Hdone p Hp). intros j w' Hj.
    destruct (decide (i = j)) as [<- | Hne].
    + rewrite Hw in Hj. injection Hj as <-.
      apply (Hnone i (Worker s (w_todo w))).
      apply list_lookup_insert_eq. exact (lookup_lt_Some _ _ _ Hw).
    + apply (Hnone j w'). rewrite list_lookup_insert_ne by exact Hne. exact Hj.
Qed.

(** Every step of every worker is defined and keeps the invariant. *)
Lemma team_step_inv (ws : list worker) (m : mem) (i : nat) :
  team_inv src dst m0 ws m ->
  exists ws' m',
    team_step src dst i (ws, m) = Some (ws', m')
    /\ team_inv src dst m0 ws' m'.
Proof.
  intros Hinv. unfold team_step. simpl.
  destruct (ws !! i) as [w |] eqn:Hw; [| exists ws, m; split; [reflexivity | exact Hinv]].
  destruct (inv_workers _ _ _ _ _ Hinv i w Hw) as [Hext Hst].
  unfold worker_step.
  destruct (w_todo w) as [| [y x] rest] eqn:Htodo.
  { exists (<[i := w]> ws), m. split; [reflexivity |].
    rewrite list_insert_id by exact Hw. exact Hinv. }
  apply List.Forall_cons_iff in Hext as [Hp Hrest].
  destruct (w_stage w) as [| r | r g | r g b] eqn:Hs; simpl in Hst.
  - destruct (team_load ws m y x 0 Hinv Hp ltac:(lia)) as (v & Hv & ->). simpl.
    eexists _, m. split; [reflexivity |]. rewrite <- Htodo.
    apply team_inv_stage; [exact Hinv | exact Hw |].
    rewrite Htodo. split; [constructor; assumption | exact Hv].
  - destruct (team_load ws m y x 1 Hinv Hp ltac:(lia)) as (v & Hv & ->). simpl.
    eexists _, m. split; [reflexivity |]. rewrite <- Htodo.
    apply team_inv_stage; [exact Hinv | exact Hw |].
    rewrite Htodo. split; [constructor; assumption | split; assumption].
  - destruct (team_load ws m y x 2 Hinv Hp ltac:(lia)) as (v & Hv & ->). simpl.
    eexists _, m. split; [reflexivity |]. rewrite <- Htodo.
    apply team_inv_stage; [exact Hinv | exact Hw |].
    rewrite Htodo. destruct Hst as [Hr Hg].
    split; [constructor; assumption | repeat split; assumption].
  - destruct Hst as (Hr & Hg & Hb).
    assert (Hgray : gray_of src m0 y x = to_uchar (luma r g b)).
    { unfold gray_of, load. rewrite Hr, Hg, Hb. reflexivity. }
    destruct (luma_to_uchar r g b) as (v & Hv & _). rewrite Hv. simpl.
    pose proof (dest_addr_bound src dst y x Hcov Hp) as Hd.
    pose proof (ok_dest _ _ _ Hok) as Hdest.
    destruct Hinv as [Hlen Hframe Hws Hdone].
    unfold store. rewrite decide_True by lia. simpl.
    eexists _, _. split; [reflexivity |]. constructor.
    + rewrite length_insert. exact Hlen.
    + intros a Ha. rewrite list_lookup_insert_ne by (apply not_eq_sym, Ha, Hp).
      exact (Hframe a Ha).
    + intros j w' Hj.
      apply list_lookup_insert_Some in Hj as [(_ & <- & _) | [_ Hj]].
      * split; [exact Hrest |]. simpl. destruct rest; exact I.
      * exact (Hws j w' Hj).
    + intros p Hin Hnone.
      destruct (decide (p = (y, x))) as [-> | Hne].
      * unfold dest_addr. simpl. rewrite Hgray, Hv.
        apply list_lookup_insert_eq. lia.
      * rewrite list_lookup_insert_ne.
        -- apply (Hdone p Hin). intros j w' Hj.
           destruct (decide (i = j)) as [<- | Hij].
           ++ rewrite Hw in Hj. injection Hj as <-. rewrite Htodo.
              intros [Heq | Hin']; [exact (Hne (eq_sym Heq)) |].
              apply (Hnone i (Worker Load_r rest)); [| exact Hin'].
              apply list_lookup_insert_eq. exact (lookup_lt_Some _ _ _ Hw).
           ++ apply (Hnone j w').
              rewrite list_lookup_insert_ne by exact Hij. exact Hj.
        -- intros Heq. apply Hne. symmetry.
           exact (dest_addr_inj src dst (y, x) p Hcov Hp Hin Heq).
Qed.

Lemma team_run_inv (schedule : list nat) (ws : list worker) (m : mem) :
  team_inv src dst m0 ws m ->
  exists ws' m',
    team_run src dst schedule (ws, m) = Some (ws', m')
    /\ team_inv src dst m0 ws' m'.
Proof.
  revert ws m. induction schedule as [| i schedule IH]; intros ws m Hinv.
  - exists ws, m. split; [reflexivity | exact Hinv].
  - destruct (team_step_inv ws m i Hinv) as (ws1 & m1 & Hstep & Hinv1).
    destruct (IH ws1 m1 Hinv1) as (ws' & m' & Hrun & Hinv').
    exists ws', m'. simpl. rewrite Hstep. split; [exact Hrun | exact Hinv'].
Qed.

(** The invariant holds at the start, when the chunks cover the rows of
    the source. *)
Lemma team_inv_start (sizes : list nat) :
  list_sum sizes = v3_shape0 src ->
  team_inv src dst m0 (team src sizes) m0.
Proof.
  intros Hsum. pose proof (ok_width _ _ _ Hok) as Hw.
  assert (Hmem : forall i w, team src sizes !! i = Some w ->
            w_stage w = Load_r /\ In (w_todo w) (workers src sizes)).
  { intros i w Hi. unfold team in Hi.
    apply list_elem_of_lookup_2, list_elem_of_In, in_map_iff in Hi
      as (t & <- & Ht).
    split; [reflexivity | exact Ht]. }
  constructor.
  - reflexivity.
  - intros a _. reflexivity.
  - intros i w Hi. destruct (Hmem i w Hi) as [Hs Ht]. split.
    + apply List.Forall_forall. intros p Hp.
      assert (Hex : exists t, In t (workers src sizes) /\ In p t)
        by (exists (w_todo w); split; assumption).
      apply (workers_iterations src sizes p Hw) in Hex.
      rewrite Hsum in Hex. exact Hex.
    + rewrite Hs. destruct (w_todo w); exact I.
  - intros p Hp Hnone. exfalso.
    assert (Hex : exists t, In t (workers src sizes) /\ In p t).
    { apply (workers_iterations src sizes p Hw). rewrite Hsum. exact Hp. }
    destruct Hex as (t & Ht & Hpt).
    assert (Hin : In (Worker Load_r t) (team src sizes)) by (apply in_map; exact Ht).
    apply list_elem_of_In, list_elem_of_lookup_1 in Hin as [i Hi].
    exact (Hnone i _ Hi Hpt).
Qed.

(** When the team has finished, the memory is the one the single-threaded
    call ends in. *)
Lemma team_inv_finished (ws : list worker) (m : mem) :
  team_inv src dst m0 ws m -> finished ws ->
  grayscale_cython src dst m0 = Some m.
Proof.
  intros [Hlen Hframe _ Hdone] Hfin.
  destruct (grayscale_cython_covering src dst m0 Hok Hcov)
    as (m' & Hrun & Hlen' & Hframe' & Hval').
  rewrite Hrun. f_equal. apply list_eq. intros a.
  set (its := chunk_iterations src 0 (Z.to_nat (height_of src))).
  destruct (in_dec Nat.eq_dec a (map (dest_addr dst) its)) as [Hin | Hnin].
  - apply in_map_iff in Hin as ([y x] & <- & Hp).
    apply (call_iterations src dst m0 _ Hok) in Hp.
    unfold dest_addr. simpl. rewrite (Hval' y x Hp).
    symmetry. apply (Hdone (y, x) Hp). intros i w Hi.
    rewrite (proj1 (List.Forall_forall _ _) Hfin w); [intros [] |].
    apply list_elem_of_In. exact (list_elem_of_lookup_2 _ _ _ Hi).
  - assert (Hout : forall y x, in_extent src (y, x) -> a <> elem2 dst y x).
    { intros y x Hp ->. apply Hnin.
      apply (in_map (dest_addr dst) its (y, x)).
      apply (call_iterations src dst m0 _ Hok). exact Hp. }
    rewrite (Hframe' a Hout), (Hframe a Hout). reflexivity.
Qed.

End Team.

(** Under every schedule, each memory access of each worker is defined, and
    once every worker has finished its chunk the memory is the one the
    single-threaded call ends in. *)
Lemma team_run_agrees (m : mem) (src : view3) (dst : view2)
    (sizes : list nat) (schedule : list nat) :
  call_ok m src dst -> same_extent src dst ->
  list_sum sizes = v3_shape0 src ->
  exists ws' m',
    team_run src dst schedule (team src sizes, m) = Some (ws', m')
    /\ (finished ws' -> grayscale_cython src dst m = Some m').
Proof.
  intros Hok Hsame Hsum.
  pose proof (same_extent_covers src dst Hsame) as Hcov.
  destruct (team_run_inv src dst m Hok Hcov schedule _ _
              (team_inv_start src dst m Hok sizes Hsum))
    as (ws' & m' & Hrun & Hinv).
  exists ws', m'. split; [exact Hrun |].
  exact (team_inv_finished src dst m Hok Hcov ws' m' Hinv).
Qed.

(** C4. For every source and destination of matching extent and every
    partition of the rows [0, H) into contiguous chunks, one per worker and
    for any number of workers, the workers' row loops run independently
    leave the memory that the single-threaded call leaves, byte for byte.
    This holds for every interleaving of the workers' iterations, and also
    when the workers are interleaved at each single load and store, under
    every schedule that lets all of them finish. *)
Theorem prange_static_partition (m : mem) (src : view3) (dst : view2)
    (sizes : list nat) :
  call_ok m src dst -> same_extent src dst ->
  list_sum sizes = v3_shape0 src ->
  exists m',
    grayscale_cython src dst m = Some m'
    /\ (forall tr, interleaving (workers src sizes) tr ->
                   run_iterations src dst tr m = Some m')
    /\ (forall schedule,
          exists ws' m'',
            team_run src dst schedule (team src sizes, m) = Some (ws', m'')
            /\ (finished ws' -> m'' = m')).
Proof.
  intros Hok Hsame Hsum.
  pose proof (same_extent_covers src dst Hsame) as Hcov.
  destruct (grayscale_cython_covering src dst m Hok Hcov) as (m' & Hrun & _).
  exists m'. split; [exact Hrun |]. split.
  - intros tr Hil.
    rewrite <- Hrun, grayscale_cython_iterations.
    assert (Hset : forall p, In p tr <-> in_extent src p).
    { intros p. rewrite (interleaving_In _ _ Hil p).
      rewrite (workers_iterations src sizes p (ok_width _ _ _ Hok)), Hsum.
      reflexivity. }
    apply (run_iterations_same_set src dst _ _ m Hok Hcov).
    + apply List.Forall_forall. intros p Hp. apply Hset. exact Hp.
    + intros p. rewrite Hset. symmetry. apply (call_iterations src dst m p Hok).
  - intros schedule.
    destruct (team_run_agrees m src dst sizes schedule Hok Hsame Hsum)
      as (ws' & m'' & Hteam & Hfin).
    exists ws', m''. split; [exact Hteam |].
    intros Hdone. specialize (Hfin Hdone). rewrite Hrun in Hfin.
    injection Hfin as ->. reflexivity.
Qed.

Lemma prange_static_partition_witness :
  exists m',
    grayscale_cython Example.source_2x1 Example.dest_2x1 Example.memory = Some m'
    /\ run_iterations Example.source_2x1 Example.dest_2x1
         [(1%nat, 0%nat); (0%nat, 0%nat)] Example.memory = Some m'
    /\ exists ws',
         team_run Example.source_2x1 Example.dest_2x1
           [1; 0; 0; 1; 1; 0; 0; 1]%nat
           (team Example.source_2x1 [1; 1]%nat, Example.memory)
         = Some (ws', m')
         /\ finished ws'.
Proof.
  destruct (prange_static_partition Example.memory Example.source_2x1
              Example.dest_2x1 [1%nat; 1%nat])
    as (m' & Hrun & Hil & Hteam).
  - apply example_call_ok; cbv; lia.
  - split; reflexivity.
  - reflexivity.
  - exists m'. split; [exact Hrun |]. split.
    + apply Hil.
      apply (interleaving_step [[(0%nat, 0%nat)]] [] (1%nat, 0%nat) [] [(0%nat, 0%nat)]).
      apply (interleaving_step [] [[]] (0%nat, 0%nat) [] []).
      apply interleaving_done. repeat constructor.
    + destruct (Hteam [1; 0; 0; 1; 1; 0; 0; 1]%nat) as (ws' & m'' & Hr & Hfin).
      exists ws'. vm_compute in Hr. injection Hr as <- <-.
      assert (Hdone : finished [Worker Load_r []; Worker Load_r []])
        by (repeat constructor).
      rewrite <- (Hfin Hdone). split; [vm_compute; reflexivity | exact Hdone].
Defined.

(** * [sum_of_squares] *)

Section SumOfSquares.

Import CythonDemo.

Lemma closed_form_step (a : Z) :
  0 <= a -> closed_form (a + 1) = closed_form a + (a + 1) * (a + 1).
Proof.
  intros Ha. unfold closed_form.
  replace ((a + 1) * (a + 1 + 1) * (2 * (a + 1) + 1))
    with (a * (a + 1) * (2 * a + 1) + (a + 1) * (a + 1) * 6) by ring.
  apply Z.div_add. lia.
Qed.

(** The closed form is the sum of the squares. *)
Lemma sum_squares_closed_form (n : nat) :
  sum_squares_upto n = closed_form (Z.of_nat n).
Proof.
  induction n as [| n IH].
  - reflexivity.
  - cbn [sum_squares_upto]. rewrite IH.
    replace (Z.of_nat (S n)) with (Z.of_nat n + 1) by lia.
    rewrite closed_form_step by lia. reflexivity.
Qed.

Lemma closed_form_bound (a : Z) :
  0 <= a <= 46340 -> 0 <= closed_form a <= 33171177740190.
Proof.
  intros Ha. unfold closed_form.
  assert (H : 0 <= a * (a + 1) * (2 * a + 1) <= 46340 * 46341 * 92681) by nia.
  revert H. generalize (a * (a + 1) * (2 * a + 1)). intros p Hp.
  split.
  - apply Z.div_pos; lia.
  - apply Z.div_le_upper_bound; lia.
Qed.

(** Up to 46340 the 32-bit square is the square. *)
Lemma int_square_small (i : Z) : 0 <= i <= 46340 -> CInt.int (i * i) = i * i.
Proof.
  intros Hi. unfold CInt.int, CInt.wrap.
  change (2 ^ (32 - 1)) with 2147483648. change (2 ^ 32) with 4294967296.
  rewrite Z.mod_small by nia. lia.
Qed.

Lemma long_long_small (z : Z) :
  0 <= z <= 2 ^ 62 -> CInt.long_long z = z.
Proof.
  intros Hz. unfold CInt.long_long, CInt.wrap.
  change (2 ^ (64 - 1)) with 9223372036854775808.
  change (2 ^ 64) with 18446744073709551616.
  change (2 ^ 62) with 4611686018427387904 in Hz.
  rewrite Z.mod_small by lia. lia.
Qed.

(** The loop adds the squares of [a + 1 .. a + k] to the closed form of
    [a], as long as the squares fit 32 bits. *)
Lemma loop_closed_form (k : nat) (a : Z) :
  0 <= a -> a + Z.of_nat k <= 46340 ->
  loop k (a + 1) (closed_form a) = closed_form (a + Z.of_nat k).
Proof.
  revert a. induction k as [| k IH]; intros a Ha Hk.
  - simpl. f_equal. lia.
  - cbn [loop]. rewrite int_square_small by lia.
    rewrite <- closed_form_step by lia.
    rewrite long_long_small
      by (pose proof (closed_form_bound (a + 1) ltac:(lia));
          change (2 ^ 62) with 4611686018427387904; lia).
    rewrite IH by lia. f_equal. lia.
Qed.

(** Below [INT_MAX] the stop value [n + 1] does not wrap around: the loop
    runs [n] times when [n] is positive, and not at all otherwise. *)
Lemma sum_of_squares_loop (n : Z) :
  CInt.INT_MIN <= n < CInt.INT_MAX ->
  sum_of_squares n = Returns (loop (Z.to_nat n) 1 0).
Proof.
  unfold sum_of_squares, CInt.INT_MIN, CInt.INT_MAX, CInt.int, CInt.wrap.
  change (- 2 ^ 31) with (-2147483648). change (2 ^ 31 - 1) with 2147483647.
  change (2 ^ (32 - 1)) with 2147483648. change (2 ^ 32) with 4294967296.
  intros Hn.
  destruct (Z.leb_spec (-2147483648) n); [| lia].
  destruct (Z.leb_spec n 2147483647); [| lia].
  simpl andb. cbv iota. f_equal. f_equal. f_equal.
  rewrite Z.mod_small by lia. lia.
Qed.

(** For arguments up to 46340 the function returns the sum of squares. *)
Lemma sum_of_squares_small (n : Z) :
  0 <= n <= 46340 -> sum_of_squares n = Returns (closed_form n).
Proof.
  intros Hn.
  rewrite sum_of_squares_loop
    by (unfold CInt.INT_MIN, CInt.INT_MAX;
        change (- 2 ^ 31) with (-2147483648);
        change (2 ^ 31 - 1) with 2147483647; lia).
  f_equal.
  change 0 with (closed_form 0) at 1. change 1 with (0 + 1).
  rewrite loop_closed_form by lia. f_equal. lia.
Qed.

Lemma loop_add (k1 k2 : nat) (i total : Z) :
  loop (k1 + k2) i total = loop k2 (i + Z.of_nat k1) (loop k1 i total).
Proof.
  revert i total. induction k1 as [| k1 IH]; intros i total.
  - simpl. f_equal. lia.
  - cbn [Nat.add loop]. rewrite IH. f_equal. lia.
Qed.

(** One more iteration after the last exact one: the square of 46341
    wraps around. *)
Lemma loop_46341 : loop (Z.to_nat 46341) 1 0 = closed_form 46341 - 2 ^ 32.
Proof.
  replace (Z.to_nat 46341) with (Z.to_nat 46340 + 1)%nat
    by (change 1%nat with (Z.to_nat 1);
        rewrite <- (Z2Nat.inj_add 46340 1) by lia; reflexivity).
  rewrite loop_add, Z2Nat.id by lia.
  change 0 with (closed_form 0) at 1. change 1 with (0 + 1) at 2.
  rewrite (loop_closed_form (Z.to_nat 46340) 0) by (rewrite ?Z2Nat.id; lia).
  rewrite Z2Nat.id by lia. vm_compute. reflexivity.
Qed.

End SumOfSquares.

(** C3.  At [n = 46341] the function does not return the sum of squares:
    the product [46341 * 46341] exceeds the C [int] it is computed in, and
    the result falls [2 ^ 32] short of [n (n + 1) (2 n + 1) / 6]. *)
Theorem sum_of_squares_46341 :
  CythonDemo.closed_form 46341 = 33173325228471
  /\ CythonDemo.sum_of_squares 46341
     = CythonDemo.Returns (CythonDemo.closed_form 46341 - 2 ^ 32)
  /\ CythonDemo.sum_of_squares 46341
     <> CythonDemo.Returns (CythonDemo.closed_form 46341).
Proof.
  assert (H : CythonDemo.sum_of_squares 46341
              = CythonDemo.Returns (CythonDemo.closed_form 46341 - 2 ^ 32)).
  { rewrite sum_of_squares_loop
      by (unfold CInt.INT_MIN, CInt.INT_MAX;
          change (- 2 ^ 31) with (-2147483648);
          change (2 ^ 31 - 1) with 2147483647; lia).
    rewrite loop_46341. reflexivity. }
  split; [vm_compute; reflexivity |]. split; [exact H |].
  rewrite H. vm_compute. discriminate.
Qed.

(** * Further properties of [grayscale_cython] *)

Section Defined.

Variables (src : view3) (dst : view2).





End Defined.

Lemma chunk_iterations_no_columns (src : view3) (lo n : nat) :
  v3_shape1 src = 0%nat -> chunk_iterations src lo n = [].
Proof.
  intros Hw. unfold chunk_iterations, width_of. rewrite Hw.
  change (range (CInt.int (Z.of_nat 0))) with (@nil nat).
  generalize (seq lo n). intros l. induction l as [| y l IH]; [reflexivity |].
  simpl. exact IH.
Qed.

(** X7. A source with no rows or with no columns is converted by doing
    nothing: the call returns the memory as it was, whatever the
    destination view and the memory are. *)
Theorem grayscale_cython_no_pixels (m : mem) (src : view3) (dst : view2) :
  v3_shape0 src = 0%nat \/ v3_shape1 src = 0%nat ->
  grayscale_cython src dst m = Some m.
Proof.
  intros [H0 | H1].
  - unfold grayscale_cython, height_of. rewrite H0. reflexivity.
  - rewrite grayscale_cython_iterations.
    rewrite (chunk_iterations_no_columns src 0 _ H1). reflexivity.
Qed.

Lemma grayscale_cython_no_pixels_witness :
  grayscale_cython (View3 0 2 0 3) Example.dest Example.memory
  = Some Example.memory.
Proof. apply grayscale_cython_no_pixels. right. reflexivity. Defined.

(** Whether an address is the destination of a pixel of the extent. *)
Lemma stored_dec (m : mem) (src : view3) (dst : view2) (a : nat) :
  call_ok m src dst ->
  (exists y x, in_extent src (y, x) /\ a = elem2 dst y x)
  \/ (forall y x, in_extent src (y, x) -> a <> elem2 dst y x).
Proof.
  intros Hok.
  set (its := chunk_iterations src 0 (Z.to_nat (height_of src))).
  destruct (in_dec Nat.eq_dec a (map (dest_addr dst) its)) as [Hin | Hnin].
  - left. apply in_map_iff in Hin as ([y x] & <- & Hp).
    exists y, x. split; [| reflexivity].
    exact (proj1 (call_iterations src dst m _ Hok) Hp).
  - right. intros y x Hp ->. apply Hnin.
    apply (in_map (dest_addr dst) its (y, x)).
    exact (proj2 (call_iterations src dst m _ Hok) Hp).
Qed.

(** X8. Converting again changes nothing: a second call with the same
    arguments, on the memory the first call left, returns that memory. *)
Theorem grayscale_cython_again (m : mem) (src : view3) (dst : view2) :
  call_ok m src dst -> covers src dst ->
  exists m',
    grayscale_cython src dst m = Some m'
    /\ grayscale_cython src dst m' = Some m'.
Proof.
  intros Hok Hcov.
  destruct (grayscale_cython_covering src dst m Hok Hcov)
    as (m' & Hrun & Hlen & Hframe & Hval).
  pose proof (call_ok_length m m' src dst Hlen Hok) as Hok'.
  destruct (grayscale_cython_covering src dst m' Hok' Hcov)
    as (m'' & Hrun' & _ & Hframe' & Hval').
  exists m'. split; [exact Hrun |]. rewrite Hrun'. f_equal.
  apply list_eq. intros a.
  destruct (stored_dec m src dst a Hok) as [(y & x & Hp & ->) | Hout].
  - rewrite (Hval' y x Hp), (Hval y x Hp).
    apply (gray_of_source_only src dst m m' y x Hok Hp).
    intros a Ha. apply Hframe.
    exact (source_not_stored src dst m a Hok Hcov Ha).
  - exact (Hframe' a Hout).
Qed.

Lemma grayscale_cython_again_witness :
  exists m',
    grayscale_cython Example.source Example.dest Example.memory = Some m'
    /\ grayscale_cython Example.source Example.dest m' = Some m'.
Proof.
  apply grayscale_cython_again.
  - apply example_call_ok; cbv; lia.
  - split; cbv; lia.
Defined.

(** X9. The call changes nothing but the destination buffer: the memory
    keeps its size, and every byte outside the destination's address range
    (the source, and anything else the memory holds) keeps its value. *)
Theorem grayscale_cython_frame (m : mem) (src : view3) (dst : view2) :
  call_ok m src dst -> covers src dst ->
  exists m',
    grayscale_cython src dst m = Some m'
    /\ length m' = length m
    /\ forall a,
         (a < v2_data dst \/ v2_data dst + size2 dst <= a)%nat ->
         m' !! a = m !! a.
Proof.
  intros Hok Hcov.
  destruct (grayscale_cython_covering src dst m Hok Hcov)
    as (m' & Hrun & Hlen & Hframe & _).
  exists m'. split; [exact Hrun |]. split; [exact Hlen |].
  intros a Ha. apply Hframe. intros y x Hp.
  pose proof (dest_addr_bound src dst y x Hcov Hp). lia.
Qed.

Lemma grayscale_cython_frame_witness :
  exists m',
    grayscale_cython Example.source Example.dest Example.memory = Some m'
    /\ length m' = 10%nat
    /\ skipn 8 m' = [x07; x09].
Proof.
  destruct (grayscale_cython_frame Example.memory Example.source Example.dest)
    as (m' & Hrun & Hlen & _).
  - apply example_call_ok; cbv; lia.
  - split; cbv; lia.
  - exists m'. split; [exact Hrun |]. split; [exact Hlen |].
    vm_compute in Hrun. injection Hrun as <-. reflexivity.
Defined.

(** X10. A source with between [2 ^ 31] and [2 ^ 32 - 1] rows is not
    converted at all, however many pixels it has: its row count, narrowed
    to the C [int] [height], is negative, the row loop does not run and the
    call returns the memory as it was. *)
Theorem grayscale_cython_height_wraps (m : mem) (src : view3) (dst : view2) :
  2 ^ 31 <= Z.of_nat (v3_shape0 src) < 2 ^ 32 ->
  height_of src < 0 /\ grayscale_cython src dst m = Some m.
Proof.
  intros Hh.
  assert (Hneg : height_of src < 0).
  { unfold height_of, CInt.int, CInt.wrap.
    change (2 ^ (32 - 1)) with 2147483648. change (2 ^ 32) with 4294967296.
    change (2 ^ 31) with 2147483648 in Hh. change (2 ^ 32) with 4294967296 in Hh.
    generalize dependent (Z.of_nat (v3_shape0 src)). intros z Hz.
    rewrite <- (Z.mod_unique (z + 2147483648) 4294967296 1 (z - 2147483648))
      by lia.
    lia. }
  split; [exact Hneg |].
  unfold grayscale_cython, range.
  replace (Z.to_nat (height_of src)) with 0%nat by lia. reflexivity.
Qed.

Lemma grayscale_cython_height_wraps_witness :
  in_extent Huge.source_tall (0%nat, 0%nat)
  /\ Huge.memory !! elem2 Huge.dest_tall 0 0 = Some x07
  /\ height_of Huge.source_tall < 0
  /\ grayscale_cython Huge.source_tall Huge.dest_tall Huge.memory
     = Some Huge.memory.
Proof.
  split; [exact (proj1 huge_in_extent) |].
  split; [unfold Huge.dest_tall; rewrite elem2_origin; exact huge_first_dest |].
  apply (grayscale_cython_height_wraps Huge.memory Huge.source_tall
           Huge.dest_tall).
  huge_views. rewrite huge_pixels.
  vm_compute. split; [discriminate | reflexivity].
Defined.

(** A run of iterations leaves every address that is not the destination
    of one of them as it was. *)
Lemma run_iterations_untouched (src : view3) (dst : view2)
    (tr : list (nat * nat)) (m m' : mem) (a : nat) :
  run_iterations src dst tr m = Some m' ->
  ~ In a (map (dest_addr dst) tr) ->
  m' !! a = m !! a.
Proof.
  unfold run_iterations. revert m.
  induction tr as [| [y x] tr IH]; intros m Hr Hn.
  - injection Hr as <-. reflexivity.
  - simpl in Hr, Hn.
    destruct (pixel src dst y x m) as [m1 |] eqn:Hp; [| discriminate].
    rewrite (IH m1 Hr) by tauto.
    unfold pixel, load, store in Hp.
    destruct (m !! elem3 src y x 0); [| discriminate].
    destruct (m !! elem3 src y x 1); [| discriminate].
    destruct (m !! elem3 src y x 2); [| discriminate].
    simpl in Hp. destruct (to_uchar _); [| discriminate]. simpl in Hp.
    destruct (decide _); [| discriminate]. injection Hp as <-.
    apply list_lookup_insert_ne. intros He. apply Hn. left. exact He.
Qed.

(** ** Sources with more than three channels *)

Section Separate.

Variables (src : view3) (dst : view2) (n : nat).

(** The loads and stores of the extent fall inside a memory of [n] bytes,
    no store falls on a sample that is loaded, and distinct pixels are
    stored at distinct addresses. *)
Hypothesis Hload :
  forall y x c, in_extent src (y, x) -> (c < 3)%nat -> (elem3 src y x c < n)%nat.
Hypothesis Hstore :
  forall y x, in_extent src (y, x) -> (elem2 dst y x < n)%nat.
Hypothesis Hapart :
  forall y x y' x' c,
    in_extent src (y, x) -> in_extent src (y', x') -> (c < 3)%nat ->
    elem2 dst y x <> elem3 src y' x' c.
Hypothesis Hdistinct :
  forall p q, in_extent src p -> in_extent src q ->
              dest_addr dst p = dest_addr dst q -> p = q.

Lemma pixel_defined_separate (m : mem) (y x : nat) :
  length m = n -> in_extent src (y, x) ->
  exists v, gray_of src m y x = Some v
            /\ pixel src dst y x m = Some (<[elem2 dst y x := v]> m).
Proof.
  intros Hlen Hin. unfold gray_of, pixel, load.
  pose proof (Hload y x 0 Hin ltac:(lia)) as H0.
  pose proof (Hload y x 1 Hin ltac:(lia)) as H1.
  pose proof (Hload y x 2 Hin ltac:(lia)) as H2.
  pose proof (Hstore y x Hin) as Hd. rewrite <- Hlen in H0, H1, H2, Hd.
  destruct (lookup_lt_is_Some_2 m _ H0) as [r ->].
  destruct (lookup_lt_is_Some_2 m _ H1) as [g ->].
  destruct (lookup_lt_is_Some_2 m _ H2) as [b ->]. simpl.
  destruct (luma_to_uchar r g b) as (v & Hv & _).
  exists v. rewrite Hv. simpl. split; [reflexivity |].
  unfold store. rewrite decide_True by exact Hd. reflexivity.
Qed.

Lemma gray_of_insert_separate (m : mem) (p q : nat * nat) (v : uchar) :
  in_extent src p -> in_extent src q ->
  gray_of src (<[dest_addr dst p := v]> m) (fst q) (snd q)
  = gray_of src m (fst q) (snd q).
Proof.
  destruct p as [y x], q as [y' x']. intros Hp Hq.
  unfold gray_of, load, dest_addr. simpl.
  rewrite !list_lookup_insert_ne by (apply Hapart; (assumption || lia)).
  reflexivity.
Qed.

Lemma run_iterations_separate (tr : list (nat * nat)) (m : mem) :
  length m = n -> Forall (in_extent src) tr ->
  exists m',
    run_iterations src dst tr m = Some m'
    /\ length m' = n
    /\ (forall p, In p tr -> m' !! dest_addr dst p = gray_of src m (fst p) (snd p)).
Proof.
  intros Hlen Htr. revert m Hlen.
  induction Htr as [| [y x] tr Hp Htr IH]; intros m Hlen.
  - exists m. split; [reflexivity |]. split; [exact Hlen | intros p []].
  - destruct (pixel_defined_separate m y x Hlen Hp) as (v & Hv & Hpx).
    assert (Hlen1 : length (<[elem2 dst y x := v]> m) = n)
      by (rewrite length_insert; exact Hlen).
    destruct (IH _ Hlen1) as (m' & Hrun & Hlen' & Hval).
    assert (Hframe : ~ In (dest_addr dst (y, x)) (map (dest_addr dst) tr) ->
                     m' !! dest_addr dst (y, x) = Some v).
    { intros Hnin. rewrite (run_iterations_untouched src dst tr _ m' _ Hrun Hnin).
      apply list_lookup_insert_eq. rewrite Hlen. exact (Hstore y x Hp). }
    exists m'. unfold run_iterations in *. simpl. rewrite Hpx.
    split; [exact Hrun |]. split; [exact Hlen' |].
    assert (Hrest : forall q, In q tr ->
              m' !! dest_addr dst q = gray_of src m (fst q) (snd q)).
    { intros q Hq. rewrite (Hval q Hq).
      apply (gray_of_insert_separate m (y, x) q v Hp).
      exact (proj1 (List.Forall_forall _ _) Htr _ Hq). }
    intros p [<- | Hq]; [| exact (Hrest p Hq)].
    destruct (in_dec Nat.eq_dec (dest_addr dst (y, x)) (map (dest_addr dst) tr))
      as [Hin | Hnin].
    + apply in_map_iff in Hin as (q & Hq & Hqin).
      assert (q = (y, x)) as ->.
      { apply Hdistinct; [| exact Hp | exact Hq].
        exact (proj1 (List.Forall_forall _ _) Htr _ Hqin). }
      exact (Hrest _ Hqin).
    + rewrite (Hframe Hnin). simpl. symmetry. exact Hv.
Qed.


End Separate.

Lemma iterations_in_extent (src : view3) (p : nat * nat) :
  Z.of_nat (v3_shape0 src) <= CInt.INT_MAX ->
  Z.of_nat (v3_shape1 src) <= CInt.INT_MAX ->
  In p (chunk_iterations src 0 (Z.to_nat (height_of src))) <-> in_extent src p.
Proof.
  intros Hh Hw. unfold height_of. rewrite (int_of_small _ Hh), Nat2Z.id.
  rewrite (in_chunk_iterations src 0 _ p Hw). unfold in_extent. lia.
Qed.



Lemma source_addr_bound_channels (m : mem) (src : view3) (dst : view2)
    (y x c : nat) :
  call_ok_channels m src dst -> in_extent src (y, x) -> (c < 3)%nat ->
  (v3_data src <= elem3 src y x c < v3_data src + size3 src)%nat.
Proof.
  intros [Hc _ _ _ _ _] [Hy Hx] Hk. simpl in Hy, Hx.
  unfold elem3, size3.
  assert (Hp : (y * v3_shape1 src + x + 1 <= v3_shape0 src * v3_shape1 src)%nat)
    by nia.
  assert (Hq : ((y * v3_shape1 src + x + 1) * v3_shape2 src
                <= v3_shape0 src * v3_shape1 src * v3_shape2 src)%nat)
    by (apply Nat.mul_le_mono_r; exact Hp).
  nia.
Qed.

(** X11. A source with more than three channels (RGBA, say), with at most
    [INT_MAX] rows and at most [INT_MAX] columns (the two bounds are fields
    of [call_ok_channels]), is converted from its first three channels: the
    call returns, and every [dest[y][x]] is the integral part of the
    weighted sum of the samples 0, 1 and 2 of [source[y][x]].  The channel
    count is never looked at. *)
Theorem grayscale_cython_extra_channels (m : mem) (src : view3) (dst : view2) :
  call_ok_channels m src dst -> same_extent src dst ->
  exists m',
    grayscale_cython src dst m = Some m'
    /\ forall y x, (y < v3_shape0 src)%nat -> (x < v3_shape1 src)%nat ->
       exists r g b d,
         m !! elem3 src y x 0 = Some r
         /\ m !! elem3 src y x 1 = Some g
         /\ m !! elem3 src y x 2 = Some b
         /\ m' !! elem2 dst y x = Some d
         /\ int_part (luma r g b) = Some (uchar_val d).
Proof.
  intros Hok Hsame. pose proof (same_extent_covers src dst Hsame) as Hcov.
  pose proof (okc_source _ _ _ Hok) as Hs.
  pose proof (okc_dest _ _ _ Hok) as Hd.
  set (tr := chunk_iterations src 0 (Z.to_nat (height_of src))).
  assert (Hit : forall p, In p tr <-> in_extent src p).
  { intros p. apply iterations_in_extent;
      [exact (okc_height _ _ _ Hok) | exact (okc_width _ _ _ Hok)]. }
  destruct (run_iterations_separate src dst (length m)) with (tr := tr) (m := m)
    as (m' & Hrun & _ & Hval).
  - intros y x c Hp Hc.
    pose proof (source_addr_bound_channels m src dst y x c Hok Hp Hc). lia.
  - intros y x Hp. pose proof (dest_addr_bound src dst y x Hcov Hp). lia.
  - intros y x y' x' c Hp Hq Hc.
    pose proof (source_addr_bound_channels m src dst y' x' c Hok Hq Hc).
    pose proof (dest_addr_bound src dst y x Hcov Hp).
    destruct (okc_disjoint _ _ _ Hok); lia.
  - intros p q. apply dest_addr_inj. exact Hcov.
  - reflexivity.
  - apply List.Forall_forall. intros p Hp. apply Hit. exact Hp.
  - exists m'. rewrite grayscale_cython_iterations. split; [exact Hrun |].
    intros y x Hy Hx.
    assert (Hin : in_extent src (y, x)) by (split; assumption).
    specialize (Hval (y, x) (proj2 (Hit (y, x)) Hin)). simpl in Hval.
    unfold dest_addr in Hval. simpl in Hval.
    destruct (gray_of src m y x) as [d |] eqn:Hg.
    + destruct (gray_of_value src m y x d Hg) as (r & g & b & Hr & Hgr & Hb & Hi).
      exists r, g, b, d. auto.
    + exfalso. unfold gray_of, load in Hg.
      pose proof (source_addr_bound_channels m src dst y x 0 Hok Hin ltac:(lia)) as A0.
      pose proof (source_addr_bound_channels m src dst y x 1 Hok Hin ltac:(lia)) as A1.
      pose proof (source_addr_bound_channels m src dst y x 2 Hok Hin ltac:(lia)) as A2.
      destruct (lookup_lt_is_Some_2 m (elem3 src y x 0) ltac:(lia)) as [r Hr].
      destruct (lookup_lt_is_Some_2 m (elem3 src y x 1) ltac:(lia)) as [g Hgr].
      destruct (lookup_lt_is_Some_2 m (elem3 src y x 2) ltac:(lia)) as [b Hb].
      rewrite Hr, Hgr, Hb in Hg. simpl in Hg.
      destruct (luma_to_uchar r g b) as (v & Hv & _). rewrite Hv in Hg.
      discriminate.
Qed.

Lemma grayscale_cython_extra_channels_witness :
  exists m',
    grayscale_cython ExampleRGBA.source ExampleRGBA.dest ExampleRGBA.memory
    = Some m'
    /\ m' = [x0a; x14; x1e; x63; x12].
Proof.
  destruct (grayscale_cython_extra_channels
              ExampleRGBA.memory ExampleRGBA.source ExampleRGBA.dest)
    as (m' & Hrun & _).
  - constructor; unfold size3, size2, CInt.INT_MAX; simpl; lia.
  - split; reflexivity.
  - exists m'. split; [exact Hrun |].
    vm_compute in Hrun. injection Hrun as <-. reflexivity.
Defined.

(** ** The output lies between the samples *)

Section Between.

Lemma pos_ge_pow2_digits (m : positive) :
  2 ^ (Z.pos (SpecFloat.digits2_pos m) - 1) <= Z.pos m.
Proof.
  induction m as [m IH | m IH |]; simpl SpecFloat.digits2_pos.
  - rewrite Pos2Z.inj_succ.
    replace (Z.succ (Z.pos (SpecFloat.digits2_pos m)) - 1)
      with (Z.succ (Z.pos (SpecFloat.digits2_pos m) - 1)) by lia.
    rewrite Z.pow_succ_r by lia. lia.
  - rewrite Pos2Z.inj_succ.
    replace (Z.succ (Z.pos (SpecFloat.digits2_pos m)) - 1)
      with (Z.succ (Z.pos (SpecFloat.digits2_pos m) - 1)) by lia.
    rewrite Z.pow_succ_r by lia. lia.
  - simpl. lia.
Qed.

(** A valid binary64 float above the smallest exponent is normal: its
    mantissa has exactly 53 bits. *)
Lemma valid_exponent_mantissa (s : bool) (m : positive) (e : Z) :
  SpecFloat.valid_binary FloatOps.prec FloatOps.emax (S754_finite s m e) = true ->
  -1074 <= e /\ (-1074 < e -> 2 ^ 52 <= Z.pos m).
Proof.
  unfold SpecFloat.valid_binary, SpecFloat.bounded, SpecFloat.canonical_mantissa,
    SpecFloat.fexp, SpecFloat.emin, FloatOps.prec, FloatOps.emax.
  intros H. apply andb_prop in H as [H _]. apply Z.eqb_eq in H.
  pose proof (pos_ge_pow2_digits m) as Hm.
  split; [lia |]. intros He.
  assert (Hd : Z.pos (SpecFloat.digits2_pos m) = 53) by lia.
  rewrite Hd in Hm. exact Hm.
Qed.

Lemma shiftl_neg_div (a e : Z) : e < 0 -> Z.shiftl a e = a / 2 ^ (- e).
Proof.
  intros He. rewrite <- (Z.opp_involutive e) at 1.
  rewrite Z.shiftl_opp_r, Z.shiftr_div_pow2 by lia. reflexivity.
Qed.

(** What the cast test says about the representation of the double. *)
Lemma castable_cases (f : float) :
  castable f = true ->
  (exists s, Prim2SF f = S754_zero s)
  \/ (exists m e, Prim2SF f = S754_finite true m e
                  /\ Z.shiftl (Z.pos m) e = 0)
  \/ (exists m e, Prim2SF f = S754_finite false m e /\ e < 0
                  /\ Z.pos m < 2 ^ 53 /\ -1074 <= e
                  /\ (-1074 < e -> 2 ^ 52 <= Z.pos m)).
Proof.
  intros Hc. destruct (castable_int_part f Hc) as (z & Hz & Hr).
  unfold castable in Hc. apply andb_prop in Hc as [Hlo Hhi].
  rewrite ltb_spec in Hhi. unfold int_part in Hz.
  pose proof (Prim2SF_valid f) as Hv.
  destruct (Prim2SF f) as [s | s | | s m e]; try discriminate.
  - left. exists s. reflexivity.
  - right. destruct s.
    + left. exists m, e. split; [reflexivity |].
      injection Hz as Hz.
      assert (0 <= Z.shiftl (Z.pos m) e) by (apply Z.shiftl_nonneg; lia).
      lia.
    + right. exists m, e. split; [reflexivity |].
      pose proof (valid_mantissa_bound _ _ _ Hv) as Hm.
      destruct (valid_exponent_mantissa _ _ _ Hv) as [He Hn].
      change (Prim2SF 256%float) with (S754_finite false 4503599627370496 (-44)) in Hhi.
      unfold SFltb, SFcompare in Hhi.
      destruct (Z.compare_spec e (-44)); try discriminate; repeat split; (lia || assumption).
Qed.

(** Strictly below an integer-valued double [g = K]: the integral part is
    below [K]. *)
Lemma int_part_below (f g : float) (mK : positive) (eK K : Z) :
  Prim2SF g = S754_finite false mK eK ->
  eK < 0 -> 2 ^ 52 <= Z.pos mK -> Z.pos mK = K * 2 ^ (- eK) -> 1 <= K ->
  castable f = true -> PrimFloat.ltb f g = true ->
  exists z, int_part f = Some z /\ z < K.
Proof.
  intros Hg HeK HmK HK HK1 Hc Hlt.
  rewrite ltb_spec, Hg in Hlt. unfold int_part.
  destruct (castable_cases f Hc)
    as [[s Hf] | [(m & e & Hf & Hz) | (m & e & Hf & He & Hm & _ & _)]];
    rewrite Hf in *.
  - exists 0. split; [reflexivity | lia].
  - exists (- Z.shiftl (Z.pos m) e). split; [reflexivity | lia].
  - exists (Z.shiftl (Z.pos m) e). split; [reflexivity |].
    rewrite shiftl_neg_div by exact He.
    assert (Hp : 0 < 2 ^ (- e)) by (apply Z.pow_pos_nonneg; lia).
    apply Z.div_lt_upper_bound; [exact Hp |].
    unfold SFltb, SFcompare in Hlt.
    destruct (Z.compare_spec e eK) as [Heq | Hlt' | Hgt]; try discriminate.
    + subst e. rewrite Z.mul_comm, <- HK.
      destruct (PosDef.Pos.compare_cont Eq m mK) eqn:Hcmp; try discriminate.
      exact Hcmp.
    + replace (- e) with (- eK + (eK - e)) by lia.
      rewrite Z.pow_add_r by lia.
      assert (H2 : 2 <= 2 ^ (eK - e)).
      { change 2 with (2 ^ 1) at 1. apply Z.pow_le_mono_r; lia. }
      change (2 ^ 53) with (2 ^ 52 * 2) in Hm.
      revert HK H2. generalize (2 ^ (- eK)) (2 ^ (eK - e)). intros p1 p2 HK H2.
      assert (Hmul : Z.pos mK * p2 = p1 * p2 * K) by (rewrite HK; ring).
      nia.
Qed.

(** Strictly above a positive integer-valued double [g = K]: the integral
    part is at least [K]. *)
Lemma int_part_above (f g : float) (mK : positive) (eK K : Z) :
  Prim2SF g = S754_finite false mK eK ->
  eK < 0 -> Z.pos mK < 2 ^ 53 -> Z.pos mK = K * 2 ^ (- eK) ->
  castable f = true -> PrimFloat.ltb g f = true ->
  exists z, int_part f = Some z /\ K <= z.
Proof.
  intros Hg HeK HmK HK Hc Hlt.
  pose proof (Prim2SF_valid g) as Hvg. rewrite Hg in Hvg.
  destruct (valid_exponent_mantissa _ _ _ Hvg) as [HeK' _].
  rewrite ltb_spec, Hg in Hlt. unfold int_part.
  destruct (castable_cases f Hc)
    as [[s Hf] | [(m & e & Hf & Hz) | (m & e & Hf & He & Hm & He' & Hn)]];
    rewrite Hf in *; try discriminate.
  exists (Z.shiftl (Z.pos m) e). split; [reflexivity |].
  rewrite shiftl_neg_div by exact He.
  assert (Hp : 0 < 2 ^ (- e)) by (apply Z.pow_pos_nonneg; lia).
  apply Z.div_le_lower_bound; [exact Hp |].
  unfold SFltb, SFcompare in Hlt.
  destruct (Z.compare_spec eK e) as [Heq | Hlt' | Hgt]; try discriminate.
  - subst e. rewrite Z.mul_comm, <- HK.
    destruct (PosDef.Pos.compare_cont Eq mK m) eqn:Hcmp; try discriminate.
    apply Z.lt_le_incl. exact Hcmp.
  - specialize (Hn ltac:(lia)).
    assert (HKe : K * 2 ^ (- e) * 2 ^ (e - eK) = Z.pos mK).
    { rewrite <- Z.mul_assoc, <- Z.pow_add_r by lia.
      replace (- e + (e - eK)) with (- eK) by lia. symmetry. exact HK. }
    assert (H2 : 2 <= 2 ^ (e - eK)).
    { change 2 with (2 ^ 1) at 1. apply Z.pow_le_mono_r; lia. }
    change (2 ^ 53) with (2 ^ 52 * 2) in HmK.
    revert HKe H2 Hp. generalize (2 ^ (- e)) (2 ^ (e - eK)). intros p1 p2 HKe H2 Hp.
    nia.
Qed.

Lemma uchar_val_range (c : uchar) : 0 <= uchar_val c < 256.
Proof.
  unfold uchar_val. pose proof (Byte.to_N_bounded c) as H.
  split; [apply N2Z.is_nonneg |]. apply N.lt_succ_r in H.
  change 256 with (Z.of_N 256). apply N2Z.inj_lt. exact H.
Qed.

(** The double [c + 1] of a sample [c] is an integer with a full mantissa. *)
Lemma sample_plus_one (c : uchar) :
  exists mK eK,
    Prim2SF (of_uchar c + 1)%float = S754_finite false mK eK
    /\ eK < 0 /\ 2 ^ 52 <= Z.pos mK
    /\ Z.pos mK = (uchar_val c + 1) * 2 ^ (- eK).
Proof.
  destruct c;
    (eexists _, _; split; [vm_compute; reflexivity |];
     split; [reflexivity |]; split; [vm_compute; discriminate |];
     vm_compute; reflexivity).
Qed.

(** The double [c - 1] of a sample [c >= 2] is a positive integer. *)
Lemma sample_minus_one (c : uchar) :
  uchar_val c <= 1
  \/ exists mK eK,
       Prim2SF (of_uchar c - 1)%float = S754_finite false mK eK
       /\ eK < 0 /\ Z.pos mK < 2 ^ 53
       /\ Z.pos mK = (uchar_val c - 1) * 2 ^ (- eK).
Proof.
  destruct c;
    first
      [ left; vm_compute; discriminate
      | right; eexists _, _; split; [vm_compute; reflexivity |];
        split; [reflexivity |]; split; [reflexivity |];
        vm_compute; reflexivity ].
Qed.

Lemma int_part_le_sample (f : float) (c : uchar) :
  castable f = true -> PrimFloat.ltb f (of_uchar c + 1) = true ->
  exists z, int_part f = Some z /\ z <= uchar_val c.
Proof.
  intros Hc Hlt.
  destruct (sample_plus_one c) as (mK & eK & Hg & He & Hm & HK).
  pose proof (uchar_val_range c) as Hr.
  destruct (int_part_below f _ mK eK (uchar_val c + 1) Hg He Hm HK ltac:(lia) Hc Hlt)
    as (z & Hz & Hb).
  exists z. split; [exact Hz | lia].
Qed.

Lemma int_part_ge_sample (f : float) (c : uchar) :
  castable f = true -> PrimFloat.ltb (of_uchar c - 1) f = true ->
  exists z, int_part f = Some z /\ uchar_val c - 1 <= z.
Proof.
  intros Hc Hlt.
  destruct (sample_minus_one c) as [Hsmall | (mK & eK & Hg & He & Hm & HK)].
  - destruct (castable_int_part f Hc) as (z & Hz & Hb).
    exists z. split; [exact Hz | lia].
  - exact (int_part_above f _ mK eK (uchar_val c - 1) Hg He Hm HK Hc Hlt).
Qed.

Lemma forall_samples_spec
    (P : float * float -> float * float -> float * float -> bool) :
  forall_samples P = true ->
  forall r g b, P (red_sample r) (green_sample g) (blue_sample b) = true.
Proof.
  unfold forall_samples. cbv zeta. intros H r g b.
  rewrite forallb_forall in H.
  specialize (H _ (in_map red_sample all_uchars r (all_uchars_complete r))).
  rewrite forallb_forall in H.
  specialize (H _ (in_map green_sample all_uchars g (all_uchars_complete g))).
  rewrite forallb_forall in H.
  exact (H _ (in_map blue_sample all_uchars b (all_uchars_complete b))).
Qed.

(** The comparison of the weighted sum with the samples, run over every
    triple of samples. *)
Lemma between_samples_computed : forall_samples between_samples = true.
Proof. vm_cast_no_check (eq_refl true). Qed.

(** The converted byte is at most the brightest of the three samples and
    at least the darkest minus one. *)
Lemma luma_between (r g b : uchar) :
  exists d,
    to_uchar (luma r g b) = Some d
    /\ Z.min (Z.min (uchar_val r) (uchar_val g)) (uchar_val b) - 1
       <= uchar_val d
       <= Z.max (Z.max (uchar_val r) (uchar_val g)) (uchar_val b).
Proof.
  destruct (luma_to_uchar r g b) as (d & Hd & Hi).
  exists d. split; [exact Hd |].
  pose proof (luma_castable r g b) as Hc.
  pose proof (forall_samples_spec _ between_samples_computed r g b) as H.
  unfold between_samples, red_sample, green_sample, blue_sample in H.
  cbn [fst snd] in H. cbv zeta in H.
  change (red r + green g + blue b)%float with (luma r g b) in H.
  apply andb_prop in H as [Hhi Hlo]. split.
  - assert (Hz : exists z, int_part (luma r g b) = Some z
                           /\ (uchar_val r - 1 <= z \/ uchar_val g - 1 <= z
                               \/ uchar_val b - 1 <= z)).
    { unfold fmin, fmax in Hlo.
      destruct (PrimFloat.leb (of_uchar r) (of_uchar g));
        match type of Hlo with
        | context [PrimFloat.leb ?x ?y] => destruct (PrimFloat.leb x y)
        end;
        match type of Hlo with
        | PrimFloat.ltb (of_uchar ?c - 1) _ = true =>
            destruct (int_part_ge_sample _ c Hc Hlo) as (z & Hz & Hb)
        end;
        exists z; (split; [exact Hz | lia]). }
    destruct Hz as (z & Hz & Hb). rewrite Hi in Hz. injection Hz as <-. lia.
  - assert (Hz : exists z, int_part (luma r g b) = Some z
                           /\ (z <= uchar_val r \/ z <= uchar_val g
                               \/ z <= uchar_val b)).
    { unfold fmin, fmax in Hhi.
      destruct (PrimFloat.leb (of_uchar r) (of_uchar g));
        match type of Hhi with
        | context [PrimFloat.leb ?x ?y] => destruct (PrimFloat.leb x y)
        end;
        match type of Hhi with
        | PrimFloat.ltb _ (of_uchar ?c + 1) = true =>
            destruct (int_part_le_sample _ c Hc Hhi) as (z & Hz & Hb)
        end;
        exists z; (split; [exact Hz | lia]). }
    destruct Hz as (z & Hz & Hb). rewrite Hi in Hz. injection Hz as <-. lia.
Qed.

End Between.

(** ** The team always finishes *)

Section Finish.

Variables (src : view3) (dst : view2) (m0 : mem).
Hypothesis Hok : call_ok m0 src dst.
Hypothesis Hcov : covers src dst.

(** Each step of a worker that has not finished is one of its steps left. *)
Lemma worker_step_progress (w w' : worker) (m m' : mem) (k : nat) :
  worker_step src dst w m = Some (w', m') -> steps_left w = S k ->
  steps_left w' = k.
Proof.
  unfold worker_step, steps_left.
  destruct (w_todo w) as [| [y x] rest] eqn:Htodo; [discriminate |].
  destruct (w_stage w) as [| r | r g | r g b]; simpl stage_index.
  - destruct (load m _); [| discriminate]. simpl. intros H Hk.
    injection H as <- _. simpl in *. lia.
  - destruct (load m _); [| discriminate]. simpl. intros H Hk.
    injection H as <- _. simpl in *. lia.
  - destruct (load m _); [| discriminate]. simpl. intros H Hk.
    injection H as <- _. simpl in *. lia.
  - destruct (to_uchar _); [| discriminate]. simpl.
    destruct (store m _ _); [| discriminate]. simpl. intros H Hk.
    injection H as <- _. simpl. destruct rest; simpl in *; lia.
Qed.

Lemma team_run_app (s1 s2 : list nat) (st : list worker * mem) :
  team_run src dst (s1 ++ s2) st =
  match team_run src dst s1 st with
  | Some st' => team_run src dst s2 st'
  | None => None
  end.
Proof.
  revert st. induction s1 as [| i s1 IH]; intros st; simpl; [reflexivity |].
  destruct (team_step src dst i st); [apply IH | reflexivity].
Qed.

(** Worker [i], scheduled as often as it has steps left, finishes and
    leaves the other workers as they were. *)
Lemma team_run_worker (k : nat) (ws : list worker) (m : mem) (i : nat)
    (w : worker) :
  team_inv src dst m0 ws m -> ws !! i = Some w -> steps_left w = k ->
  exists ws' m' w',
    team_run src dst (repeat i k) (ws, m) = Some (ws', m')
    /\ team_inv src dst m0 ws' m'
    /\ ws' !! i = Some w' /\ steps_left w' = 0%nat
    /\ length ws' = length ws
    /\ (forall j, j <> i -> ws' !! j = ws !! j).
Proof.
  revert ws m w. induction k as [| k IH]; intros ws m w Hinv Hw Hk.
  - exists ws, m, w. simpl. split; [reflexivity |]. split; [exact Hinv |].
    split; [exact Hw |]. split; [exact Hk |]. split; [reflexivity |].
    intros j _. reflexivity.
  - destruct (team_step_inv src dst m0 Hok Hcov ws m i Hinv)
      as (ws1 & m1 & Hstep & Hinv1).
    assert (Hshape : exists w1, worker_step src dst w m = Some (w1, m1)
                                /\ ws1 = <[i := w1]> ws).
    { unfold team_step in Hstep. simpl in Hstep. rewrite Hw in Hstep.
      destruct (worker_step src dst w m) as [[w1 m1'] |]; [| discriminate].
      injection Hstep as <- <-. exists w1. split; reflexivity. }
    destruct Hshape as (w1 & Hws & ->).
    pose proof (worker_step_progress w w1 m m1 k Hws Hk) as Hk1.
    assert (Hw1 : <[i := w1]> ws !! i = Some w1).
    { apply list_lookup_insert_eq. exact (lookup_lt_Some _ _ _ Hw). }
    destruct (IH _ m1 w1 Hinv1 Hw1 Hk1)
      as (ws' & m' & w' & Hrun & Hinv' & Hw' & Hz & Hlen & Hsame).
    exists ws', m', w'. simpl. rewrite Hstep.
    split; [exact Hrun |]. split; [exact Hinv' |]. split; [exact Hw' |].
    split; [exact Hz |]. split; [rewrite Hlen; apply length_insert |].
    intros j Hj. rewrite (Hsame j Hj).
    apply list_lookup_insert_ne. intros ->. apply Hj. reflexivity.
Qed.

Lemma steps_left_zero (w : worker) : steps_left w = 0%nat -> w_todo w = [].
Proof.
  unfold steps_left. destruct (w_todo w) as [| p rest]; [reflexivity |].
  destruct (w_stage w); simpl; lia.
Qed.

(** The workers from index [i] on, run one after the other, all finish. *)
Lemma team_run_one_by_one (l : list worker) :
  forall (i : nat) (ws : list worker) (m : mem),
    team_inv src dst m0 ws m -> drop i ws = l ->
    exists ws' m',
      team_run src dst (one_by_one i l) (ws, m) = Some (ws', m')
      /\ team_inv src dst m0 ws' m'
      /\ length ws' = length ws
      /\ (forall j, (j < i)%nat -> ws' !! j = ws !! j)
      /\ (forall j w, (i <= j)%nat -> ws' !! j = Some w -> w_todo w = []).
Proof.
  induction l as [| w l IH]; intros i ws m Hinv Hdrop.
  - exists ws, m. simpl. split; [reflexivity |]. split; [exact Hinv |].
    split; [reflexivity |]. split; [reflexivity |].
    intros j w Hj Hjw. exfalso.
    apply lookup_lt_Some in Hjw.
    assert (Hlen : length (drop i ws) = 0%nat) by (rewrite Hdrop; reflexivity).
    rewrite length_drop in Hlen. lia.
  - assert (Hw : ws !! i = Some w).
    { rewrite <- (Nat.add_0_r i), <- lookup_drop, Hdrop. reflexivity. }
    destruct (team_run_worker (steps_left w) ws m i w Hinv Hw eq_refl)
      as (ws1 & m1 & w1 & Hrun1 & Hinv1 & Hw1 & Hz1 & Hlen1 & Hsame1).
    assert (Hdrop1 : drop (S i) ws1 = l).
    { apply list_eq. intros j. rewrite lookup_drop, Hsame1 by lia.
      rewrite <- lookup_drop.
      replace (drop (S i) ws) with (drop 1 (drop i ws))
        by (rewrite drop_drop; f_equal; lia).
      rewrite Hdrop. reflexivity. }
    destruct (IH (S i) ws1 m1 Hinv1 Hdrop1)
      as (ws' & m' & Hrun & Hinv' & Hlen & Hlow & Hhigh).
    exists ws', m'. simpl. rewrite team_run_app, Hrun1.
    split; [exact Hrun |]. split; [exact Hinv' |].
    split; [rewrite Hlen; exact Hlen1 |]. split.
    + intros j Hj. rewrite (Hlow j) by lia. apply Hsame1. lia.
    + intros j w' Hj Hjw.
      destruct (decide (j = i)) as [-> | Hne].
      * rewrite (Hlow i) in Hjw by lia. rewrite Hw1 in Hjw.
        injection Hjw as <-. apply steps_left_zero. exact Hz1.
      * apply (Hhigh j w'); [lia | exact Hjw].
Qed.

End Finish.

(** X12. The team of workers always finishes: for every partition of the
    rows into chunks, the schedule that runs the workers one after the
    other, each for four memory accesses per pixel of its chunk, takes only
    defined steps, ends with every worker finished, and leaves the memory
    of the single-threaded call. *)
Theorem prange_team_finishes (m : mem) (src : view3) (dst : view2)
    (sizes : list nat) :
  call_ok m src dst -> same_extent src dst ->
  list_sum sizes = v3_shape0 src ->
  exists ws' m',
    team_run src dst (one_by_one 0 (team src sizes)) (team src sizes, m)
    = Some (ws', m')
    /\ finished ws'
    /\ grayscale_cython src dst m = Some m'.
Proof.
  intros Hok Hsame Hsum.
  pose proof (same_extent_covers src dst Hsame) as Hcov.
  destruct (team_run_one_by_one src dst m Hok Hcov (team src sizes) 0
              (team src sizes) m (team_inv_start src dst m Hok sizes Hsum)
              (drop_0 _))
    as (ws' & m' & Hrun & Hinv & _ & _ & Hdone).
  assert (Hfin : finished ws').
  { apply List.Forall_forall. intros w Hw.
    apply list_elem_of_In, list_elem_of_lookup_1 in Hw as [j Hj].
    apply (Hdone j w); [lia | exact Hj]. }
  exists ws', m'. split; [exact Hrun |]. split; [exact Hfin |].
  exact (team_inv_finished src dst m Hok Hcov ws' m' Hinv Hfin).
Qed.

Lemma prange_team_finishes_witness :
  exists ws' m',
    team_run Example.source_2x1 Example.dest_2x1
      [0; 0; 0; 0; 1; 1; 1; 1]%nat
      (team Example.source_2x1 [1; 1]%nat, Example.memory)
    = Some (ws', m')
    /\ finished ws'
    /\ grayscale_cython Example.source_2x1 Example.dest_2x1 Example.memory
       = Some m'.
Proof.
  apply (prange_team_finishes Example.memory Example.source_2x1
           Example.dest_2x1 [1; 1]%nat).
  - apply example_call_ok; cbv; lia.
  - split; reflexivity.
  - reflexivity.
Defined.

(** X13. Every converted pixel lies between its samples: [dest[y][x]] is at
    most the brightest of the three samples of [source[y][x]] and at least
    the darkest one minus one.  In particular a black pixel stays black and
    a gray pixel never gets brighter. *)
Theorem grayscale_cython_between (m : mem) (src : view3) (dst : view2)
    (y x : nat) :
  call_ok m src dst -> same_extent src dst ->
  (y < v3_shape0 src)%nat -> (x < v3_shape1 src)%nat ->
  exists m' r g b d,
    grayscale_cython src dst m = Some m'
    /\ m !! elem3 src y x 0 = Some r
    /\ m !! elem3 src y x 1 = Some g
    /\ m !! elem3 src y x 2 = Some b
    /\ m' !! elem2 dst y x = Some d
    /\ Z.min (Z.min (uchar_val r) (uchar_val g)) (uchar_val b) - 1
       <= uchar_val d
       <= Z.max (Z.max (uchar_val r) (uchar_val g)) (uchar_val b).
Proof.
  intros Hok Hsame Hy Hx.
  pose proof (same_extent_covers src dst Hsame) as Hcov.
  destruct (grayscale_cython_covering src dst m Hok Hcov)
    as (m' & Hrun & _ & _ & Hval).
  assert (Hin : in_extent src (y, x)) by (split; assumption).
  pose proof (source_addr_bound src dst m y x 0 Hok Hin ltac:(lia)) as A0.
  pose proof (source_addr_bound src dst m y x 1 Hok Hin ltac:(lia)) as A1.
  pose proof (source_addr_bound src dst m y x 2 Hok Hin ltac:(lia)) as A2.
  pose proof (ok_source _ _ _ Hok) as Hs.
  destruct (lookup_lt_is_Some_2 m (elem3 src y x 0) ltac:(lia)) as [r Hr].
  destruct (lookup_lt_is_Some_2 m (elem3 src y x 1) ltac:(lia)) as [g Hg].
  destruct (lookup_lt_is_Some_2 m (elem3 src y x 2) ltac:(lia)) as [b Hb].
  destruct (luma_between r g b) as (d & Hd & Hbounds).
  exists m', r, g, b, d. split; [exact Hrun |].
  split; [exact Hr |]. split; [exact Hg |]. split; [exact Hb |].
  split; [| exact Hbounds].
  rewrite (Hval y x Hin). unfold gray_of, load. rewrite Hr, Hg, Hb. exact Hd.
Qed.

Lemma grayscale_cython_between_witness :
  exists m' d,
    grayscale_cython Example.source Example.dest Example.memory = Some m'
    /\ m' !! 6%nat = Some d
    /\ 9 <= uchar_val d <= 30.
Proof.
  destruct (grayscale_cython_between Example.memory Example.source
              Example.dest 0 0)
    as (m' & r & g & b & d & Hrun & Hr & Hg & Hb & Hd & Hbounds).
  - apply example_call_ok; cbv; lia.
  - split; reflexivity.
  - cbv; lia.
  - cbv; lia.
  - exists m', d. split; [exact Hrun |]. split; [exact Hd |].
    vm_compute in Hr, Hg, Hb.
    injection Hr as <-. injection Hg as <-. injection Hb as <-.
    exact Hbounds.
Defined.

(** * Further properties of [sum_of_squares] *)

Section SumOfSquaresRange.

Import CythonDemo.

Lemma int_range (z : Z) : - 2 ^ 31 <= CInt.int z < 2 ^ 31.
Proof.
  unfold CInt.int, CInt.wrap.
  change (2 ^ (32 - 1)) with 2147483648. change (2 ^ 32) with 4294967296.
  change (2 ^ 31) with 2147483648.
  pose proof (Z.mod_pos_bound (z + 2147483648) 4294967296 ltac:(lia)). lia.
Qed.

(** The 32-bit value of a non-negative integer falls short of it by a
    multiple of [2 ^ 32], at least one when the integer exceeds [INT_MAX]. *)
Lemma int_shortfall (z : Z) :
  0 <= z ->
  exists q, 0 <= q /\ CInt.int z = z - 2 ^ 32 * q /\ (2 ^ 31 <= z -> 1 <= q).
Proof.
  intros Hz. exists ((z + 2147483648) / 4294967296).
  unfold CInt.int, CInt.wrap.
  change (2 ^ (32 - 1)) with 2147483648. change (2 ^ 32) with 4294967296.
  change (2 ^ 31) with 2147483648.
  pose proof (Z.div_mod (z + 2147483648) 4294967296 ltac:(lia)) as Hdm.
  pose proof (Z.mod_pos_bound (z + 2147483648) 4294967296 ltac:(lia)) as Hm.
  assert (Hq : 0 <= (z + 2147483648) / 4294967296) by (apply Z.div_pos; lia).
  repeat split; lia.
Qed.

Lemma long_long_id (z : Z) : - 2 ^ 62 <= z <= 2 ^ 62 -> CInt.long_long z = z.
Proof.
  intros Hz. unfold CInt.long_long, CInt.wrap.
  change (2 ^ (64 - 1)) with 9223372036854775808.
  change (2 ^ 64) with 18446744073709551616.
  change (2 ^ 62) with 4611686018427387904 in Hz.
  rewrite Z.mod_small by lia. lia.
Qed.

Lemma int_squares_sum_range (k : nat) (i : Z) :
  - 2 ^ 31 * Z.of_nat k <= int_squares_sum k i <= 2 ^ 31 * Z.of_nat k.
Proof.
  revert i. induction k as [| k IH]; intros i.
  - simpl. lia.
  - cbn [int_squares_sum]. pose proof (int_range (i * i)) as Hi.
    specialize (IH (i + 1)). lia.
Qed.

(** As long as the total has room, the loop adds the 32-bit products
    without any 64-bit wrap-around. *)
Lemma loop_int_squares (k : nat) (i total : Z) :
  - 2 ^ 62 + 2 ^ 31 * Z.of_nat k <= total <= 2 ^ 62 - 2 ^ 31 * Z.of_nat k ->
  loop k i total = total + int_squares_sum k i.
Proof.
  revert i total. induction k as [| k IH]; intros i total Ht.
  - simpl. lia.
  - cbn [loop int_squares_sum]. pose proof (int_range (i * i)) as Hi.
    rewrite long_long_id by lia. rewrite IH by lia. lia.
Qed.

(** The sum of the 32-bit products of [a + 1 .. a + k] falls short of the
    sum of the squares by a multiple of [2 ^ 32], at least one as soon as
    46341 is among them. *)
Lemma int_squares_sum_shortfall (k : nat) (a : Z) :
  0 <= a ->
  exists q,
    0 <= q
    /\ int_squares_sum k (a + 1)
       = closed_form (a + Z.of_nat k) - closed_form a - 2 ^ 32 * q
    /\ (a < 46341 <= a + Z.of_nat k -> 1 <= q).
Proof.
  revert a. induction k as [| k IH]; intros a Ha.
  - exists 0. simpl. rewrite Z.add_0_r. repeat split; lia.
  - destruct (int_shortfall ((a + 1) * (a + 1)) ltac:(nia)) as (q1 & Hq1 & He1 & Hb1).
    destruct (IH (a + 1) ltac:(lia)) as (q2 & Hq2 & He2 & Hb2).
    exists (q1 + q2). cbn [int_squares_sum]. rewrite He1, He2.
    rewrite (closed_form_step a Ha).
    replace (a + 1 + Z.of_nat k) with (a + Z.of_nat (S k)) by lia.
    repeat split; lia.
Qed.

(** Below [INT_MAX] the loop runs [n] times and the result is the sum of
    the 32-bit products. *)
Lemma sum_of_squares_returns (n : Z) :
  0 <= n < CInt.INT_MAX ->
  sum_of_squares n = Returns (int_squares_sum (Z.to_nat n) 1).
Proof.
  intros Hn.
  rewrite sum_of_squares_loop by (unfold CInt.INT_MIN; lia).
  unfold CInt.INT_MAX in Hn. change (2 ^ 31 - 1) with 2147483647 in Hn.
  f_equal.
  rewrite loop_int_squares; [lia |].
  rewrite Z2Nat.id by lia.
  change (2 ^ 62) with 4611686018427387904. change (2 ^ 31) with 2147483648.
  nia.
Qed.

(** At [INT_MAX] the stop value [n + 1] wraps around to [INT_MIN] and the
    loop does not run. *)
Lemma sum_of_squares_int_max : sum_of_squares CInt.INT_MAX = Returns 0.
Proof. vm_compute. reflexivity. Qed.

End SumOfSquaresRange.

(** X1. For every argument from 0 to 46340 the function returns the sum
    [1^2 + 2^2 + ... + n^2], which is [n (n + 1) (2 n + 1) / 6]. *)
Theorem sum_of_squares_exact (n : Z) :
  0 <= n <= 46340 ->
  CythonDemo.sum_of_squares n
  = CythonDemo.Returns (CythonDemo.sum_squares_upto (Z.to_nat n))
  /\ CythonDemo.sum_squares_upto (Z.to_nat n) = CythonDemo.closed_form n.
Proof.
  intros Hn.
  assert (He : CythonDemo.sum_squares_upto (Z.to_nat n) = CythonDemo.closed_form n).
  { rewrite sum_squares_closed_form, Z2Nat.id by lia. reflexivity. }
  split; [| exact He]. rewrite He. apply sum_of_squares_small. exact Hn.
Qed.

Lemma sum_of_squares_exact_witness :
  CythonDemo.sum_of_squares 10 = CythonDemo.Returns 385.
Proof.
  destruct (sum_of_squares_exact 10 ltac:(lia)) as [Hr _].
  rewrite Hr. reflexivity.
Defined.

(** X2. An argument that is zero or negative (and fits a C [int]) gives 0:
    the range [range(1, n + 1)] is empty. *)
Theorem sum_of_squares_nonpositive (n : Z) :
  CInt.INT_MIN <= n <= 0 ->
  CythonDemo.sum_of_squares n = CythonDemo.Returns 0.
Proof.
  intros Hn.
  rewrite sum_of_squares_loop
    by (unfold CInt.INT_MIN, CInt.INT_MAX in *;
        change (- 2 ^ 31) with (-2147483648) in *;
        change (2 ^ 31 - 1) with 2147483647; lia).
  replace (Z.to_nat n) with 0%nat by lia. reflexivity.
Qed.

Lemma sum_of_squares_nonpositive_witness :
  CythonDemo.sum_of_squares (-5) = CythonDemo.Returns 0.
Proof. apply sum_of_squares_nonpositive. vm_compute. split; discriminate. Defined.

(** X4. For every argument from 0 to [INT_MAX - 1], the arguments for
    which the loop runs [n] times, the 64-bit total never wraps around: the
    result is the exact sum of the 32-bit products [i * i].  It is at most
    the sum of the squares and differs from it by a multiple of [2 ^ 32]. *)
Theorem sum_of_squares_accumulator (n : Z) :
  0 <= n < CInt.INT_MAX ->
  exists v q,
    CythonDemo.sum_of_squares n = CythonDemo.Returns v
    /\ v = int_squares_sum (Z.to_nat n) 1
    /\ - 2 ^ 31 * n <= v <= 2 ^ 31 * n
    /\ 0 <= q
    /\ v = CythonDemo.closed_form n - 2 ^ 32 * q.
Proof.
  intros Hn.
  destruct (int_squares_sum_shortfall (Z.to_nat n) 0 ltac:(lia))
    as (q & Hq & He & _).
  exists (int_squares_sum (Z.to_nat n) 1), q.
  split; [apply sum_of_squares_returns; exact Hn |]. split; [reflexivity |].
  split.
  - pose proof (int_squares_sum_range (Z.to_nat n) 1) as Hr.
    rewrite Z2Nat.id in Hr by lia. exact Hr.
  - split; [exact Hq |]. change (0 + 1) with 1 in He. rewrite He.
    rewrite Z2Nat.id by lia. change (CythonDemo.closed_form 0) with 0.
    rewrite Z.add_0_l. lia.
Qed.

Lemma sum_of_squares_accumulator_witness :
  exists v, CythonDemo.sum_of_squares 50000 = CythonDemo.Returns v.
Proof.
  destruct (sum_of_squares_accumulator 50000) as (v & _ & Hv & _).
  - unfold CInt.INT_MAX. vm_compute. split; [discriminate | reflexivity].
  - exists v. exact Hv.
Defined.

(** X5. For every argument from 46341 to [INT_MAX] the result is too small:
    it is at least [2 ^ 32] below the sum of the squares.  At [INT_MAX]
    itself the stop value [n + 1] of the range wraps around, the loop does
    not run and the result is 0. *)
Theorem sum_of_squares_too_small (n : Z) :
  46341 <= n <= CInt.INT_MAX ->
  exists v,
    CythonDemo.sum_of_squares n = CythonDemo.Returns v
    /\ v <= CythonDemo.closed_form n - 2 ^ 32
    /\ (n = CInt.INT_MAX -> v = 0).
Proof.
  intros Hn. destruct (Z.eq_dec n CInt.INT_MAX) as [-> | Hne].
  - exists 0. split; [exact sum_of_squares_int_max |].
    split; [vm_compute; discriminate | reflexivity].
  - destruct (int_squares_sum_shortfall (Z.to_nat n) 0 ltac:(lia))
      as (q & Hq & He & Hb).
    exists (int_squares_sum (Z.to_nat n) 1).
    split; [apply sum_of_squares_returns; lia |].
    split; [| intros Hx; contradiction].
    change (0 + 1) with 1 in He. rewrite He.
    rewrite Z2Nat.id in * by lia. change (CythonDemo.closed_form 0) with 0.
    assert (1 <= q) by (apply Hb; lia). rewrite Z.add_0_l. lia.
Qed.

Lemma sum_of_squares_too_small_witness :
  exists v,
    CythonDemo.sum_of_squares 50000 = CythonDemo.Returns v
    /\ v <= CythonDemo.closed_form 50000 - 2 ^ 32.
Proof.
  destruct (sum_of_squares_too_small 50000) as (v & Hr & Hv & _).
  - unfold CInt.INT_MAX. vm_compute. split; discriminate.
  - exists v. split; [exact Hr | exact Hv].
Defined.
